(** * A shallow embedding of ser20's simdjson JSON archives
    (include/ser20/archives/simdjson.hpp): the write-side node/name state
    machine of [JSONOutputArchive], the read-side iterator stack of
    [JSONInputArchive], the integer narrowing of [loadValue] and the
    binary-blob glue of [saveBinaryValue]/[loadBinaryValue]. *)

From Stdlib Require Import ZArith List String Ascii Bool Lia.
From Stdlib Require Import Strings.Byte.
Import ListNotations.

Open Scope Z_scope.
#[local] Set Warnings "-register-all".

(* ================================================================== *)
(** ** Decimal printing ([std::to_string] on an unsigned counter) *)

Definition digit_char (d : Z) : ascii := ascii_of_nat (48 + Z.to_nat d).

Fixpoint digits_rev (fuel : nat) (n : Z) : string :=
  match fuel with
  | O => EmptyString
  | S f =>
      let s := String (digit_char (n mod 10)) EmptyString in
      if n <? 10 then s else (digits_rev f (n / 10) ++ s)%string
  end.

(** [std::to_string] of a non-negative integer (at most 20 digits). *)
Definition to_string (n : Z) : string := digits_rev 20 n.

(* ================================================================== *)
(** ** Write side: [JSONOutputArchive] *)

(** The external streaming writer is driven through its primitives
    (StartObject, EndObject, StartArray, EndArray, Bool, Int, Uint, Int64,
    Uint64, String, Null); the archive's output is the sequence of those
    calls.  Object keys are written with [String], exactly like string
    values: the writer tells them apart by position. *)
Inductive token :=
| TStartObject | TEndObject | TStartArray | TEndArray
| TBool (b : bool) | TInt (z : Z) | TUint (z : Z) | TInt64 (z : Z)
| TUint64 (z : Z) | TString (s : string) | TNull.

Inductive NodeType := StartObject | InObject | StartArray | InArray.

Definition NodeType_eqb (x y : NodeType) : bool :=
  match x, y with
  | StartObject, StartObject | InObject, InObject
  | StartArray, StartArray | InArray, InArray => true
  | _, _ => false
  end.

(** The archive's members: [itsNextName], [itsNameCounter] and
    [itsNodeStack] (the tops of the two [std::stack]s are the heads of the
    lists), and the calls made so far on [itsWriter]. *)
Record JSONOutputArchive := mkOut {
  itsWriter : list token;
  itsNextName : option string;
  itsNameCounter : list Z;
  itsNodeStack : list NodeType
}.

(** Scalars accepted by the non-template [saveValue] overloads
    (the [double] overload is left out of this model). *)
Inductive scalar :=
| VBool (b : bool)          (* saveValue(bool)          -> Bool   *)
| VInt (z : Z)              (* saveValue(int)           -> Int    *)
| VUnsigned (z : Z)         (* saveValue(unsigned)      -> Uint   *)
| VInt64 (z : Z)            (* saveValue(int64_t)       -> Int64  *)
| VUint64 (z : Z)           (* saveValue(uint64_t)      -> Uint64 *)
| VString (s : string)      (* saveValue(std::string)   -> String *)
| VNull.                    (* saveValue(nullptr_t)     -> Null   *)

Definition scalar_token (v : scalar) : token :=
  match v with
  | VBool b => TBool b
  | VInt z => TInt z
  | VUnsigned z => TUint z
  | VInt64 z => TInt64 z
  | VUint64 z => TUint64 z
  | VString s => TString s
  | VNull => TNull
  end.

Section OutputArchive.

(** Constructor: [itsNameCounter.push(0); itsNodeStack.push(StartObject)]. *)
Definition out_init : JSONOutputArchive :=
  mkOut [] None [0] [StartObject].

Definition emit (a : JSONOutputArchive) (ts : list token) : JSONOutputArchive :=
  mkOut (itsWriter a ++ ts) (itsNextName a) (itsNameCounter a) (itsNodeStack a).

Definition setNextName (name : option string) (a : JSONOutputArchive)
  : JSONOutputArchive :=
  mkOut (itsWriter a) name (itsNameCounter a) (itsNodeStack a).

Definition saveValue (v : scalar) (a : JSONOutputArchive) : JSONOutputArchive :=
  emit a [scalar_token v].

(** [writeName].  [top()] of an empty stack is undefined behaviour and is
    modelled by [None]. *)
Definition writeName (a : JSONOutputArchive) : option JSONOutputArchive :=
  match itsNodeStack a, itsNameCounter a with
  | nodeType :: ns, c :: cs =>
      (* start up either an object or an array, depending on state *)
      let '(nodeType', opening) :=
        match nodeType with
        | StartArray => (InArray, [TStartArray])
        | StartObject => (InObject, [TStartObject])
        | other => (other, [])
        end in
      (* [nodeType] is a reference to the top, so it now reads [nodeType'] *)
      match nodeType' with
      | InArray =>
          (* array types do not output names *)
          Some (mkOut (itsWriter a ++ opening) (itsNextName a) (c :: cs)
                      (nodeType' :: ns))
      | _ =>
          match itsNextName a with
          | None =>
              (* "value" + std::to_string(itsNameCounter.top()++) *)
              Some (mkOut (itsWriter a ++ opening
                             ++ [TString ("value" ++ to_string c)%string])
                          None ((c + 1) mod 2 ^ 32 :: cs) (nodeType' :: ns))
          | Some n =>
              Some (mkOut (itsWriter a ++ opening ++ [TString n]) None
                          (c :: cs) (nodeType' :: ns))
          end
      end
  | _, _ => None
  end.

(** [startNode]: [writeName(); itsNodeStack.push(StartObject);
    itsNameCounter.push(0)]. *)
Definition startNode (a : JSONOutputArchive) : option JSONOutputArchive :=
  match writeName a with
  | Some a' => Some (mkOut (itsWriter a') (itsNextName a')
                           (0 :: itsNameCounter a') (StartObject :: itsNodeStack a'))
  | None => None
  end.

(** The writer calls made by [finishNode] for the top state (the
    [switch] with its fall-throughs). *)
Definition finish_tokens (nt : NodeType) : list token :=
  match nt with
  | StartArray => [TStartArray; TEndArray]
  | InArray => [TEndArray]
  | StartObject => [TStartObject; TEndObject]
  | InObject => [TEndObject]
  end.

Definition finishNode (a : JSONOutputArchive) : option JSONOutputArchive :=
  match itsNodeStack a, itsNameCounter a with
  | nt :: ns, _ :: cs =>
      Some (mkOut (itsWriter a ++ finish_tokens nt) (itsNextName a) cs ns)
  | _, _ => None
  end.

(** [makeArray]: [itsNodeStack.top() = StartArray]. *)
Definition makeArray (a : JSONOutputArchive) : option JSONOutputArchive :=
  match itsNodeStack a with
  | _ :: ns => Some (mkOut (itsWriter a) (itsNextName a) (itsNameCounter a)
                           (StartArray :: ns))
  | [] => None
  end.

(** The destructor: closes the top node if it was opened. *)
Definition destroy (a : JSONOutputArchive) : option (list token) :=
  match itsNodeStack a with
  | InObject :: _ => Some (itsWriter a ++ [TEndObject])
  | InArray :: _ => Some (itsWriter a ++ [TEndArray])
  | _ :: _ => Some (itsWriter a)
  | [] => None
  end.

(** The framework's [ar(v)] for an arithmetic or string [v]: the
    prologue calls [writeName], the save function calls [saveValue]. *)
Definition save (v : scalar) (a : JSONOutputArchive) : option JSONOutputArchive :=
  match writeName a with
  | Some a' => Some (saveValue v a')
  | None => None
  end.

End OutputArchive.

(** Sequencing of write-side operations. *)
Definition out_op := JSONOutputArchive -> option JSONOutputArchive.

Fixpoint run_out (ops : list out_op) (a : JSONOutputArchive)
  : option JSONOutputArchive :=
  match ops with
  | [] => Some a
  | op :: rest => match op a with Some a' => run_out rest a' | None => None end
  end.

Definition set_name (n : option string) : out_op := fun a => Some (setNextName n a).

Example to_string_12 : to_string 12 = "12"%string.
Proof. reflexivity. Qed.

(* ================================================================== *)
(** ** The parsed document ([simdjson::dom::element]) *)

(** Parsed values.  An integer is tagged [JInt64] when it fits in
    [int64_t] and [JUint64] when it only fits in [uint64_t], as the parser
    classifies integer literals. *)
Inductive element :=
| JNull
| JBool (b : bool)
| JInt64 (z : Z)
| JUint64 (z : Z)
| JString (s : string)
| JArray (xs : list element)
| JObject (kvs : list (string * element)).

Definition int64_min : Z := - 2 ^ 63.
Definition int64_max : Z := 2 ^ 63 - 1.
Definition uint64_max : Z := 2 ^ 64 - 1.

(** Modelled from the spec: the typed scalar extraction of the external
    document ("typed scalar extraction (bool/int64/uint64/double/string/
    null) that fails explicitly on type mismatch"); an integer is extracted
    as [int64]/[uint64] only when it lies in that type's range. *)
Definition get_bool (e : element) : option bool :=
  match e with JBool b => Some b | _ => None end.

Definition get_int64 (e : element) : option Z :=
  match e with
  | JInt64 z => Some z
  | JUint64 z => if z <=? int64_max then Some z else None
  | _ => None
  end.

Definition get_uint64 (e : element) : option Z :=
  match e with
  | JInt64 z => if 0 <=? z then Some z else None
  | JUint64 z => Some z
  | _ => None
  end.

Definition get_string (e : element) : option string :=
  match e with JString s => Some s | _ => None end.

(** Modelled from the spec: the external writer and parser composed at
    their interface.  The text the writer produces for a sequence of
    primitive calls is parsed back into the tree those calls describe:
    inside an object the calls alternate between a key ([String]) and a
    value; integers are classified as [int64] when they fit, else as
    [uint64]. *)
Definition parse_int (z : Z) : option element :=
  if (int64_min <=? z) && (z <=? int64_max) then Some (JInt64 z)
  else if (0 <=? z) && (z <=? uint64_max) then Some (JUint64 z)
  else None.

Fixpoint parse_value (fuel : nat) (ts : list token)
  : option (element * list token) :=
  match fuel with
  | O => None
  | S f =>
      match ts with
      | TStartObject :: r => parse_members f r []
      | TStartArray :: r => parse_elements f r []
      | TBool b :: r => Some (JBool b, r)
      | (TInt z | TUint z | TInt64 z | TUint64 z) :: r =>
          match parse_int z with Some e => Some (e, r) | None => None end
      | TString s :: r => Some (JString s, r)
      | TNull :: r => Some (JNull, r)
      | _ => None
      end
  end
with parse_members (fuel : nat) (ts : list token)
    (acc : list (string * element)) : option (element * list token) :=
  match fuel with
  | O => None
  | S f =>
      match ts with
      | TEndObject :: r => Some (JObject (rev acc), r)
      | TString k :: r =>
          match parse_value f r with
          | Some (v, r') => parse_members f r' ((k, v) :: acc)
          | None => None
          end
      | _ => None
      end
  end
with parse_elements (fuel : nat) (ts : list token)
    (acc : list element) : option (element * list token) :=
  match fuel with
  | O => None
  | S f =>
      match ts with
      | TEndArray :: r => Some (JArray (rev acc), r)
      | _ =>
          match parse_value f ts with
          | Some (v, r') => parse_elements f r' (v :: acc)
          | None => None
          end
      end
  end.

(** The document the reader parses from the writer's complete output. *)
Definition parse (ts : list token) : option element :=
  match parse_value (2 * List.length ts + 2) ts with
  | Some (e, []) => Some e
  | _ => None
  end.

(* ================================================================== *)
(** ** Read side: [JSONInputArchive] *)

(** The exceptions the read side throws. *)
Inductive error :=
| NoMoreObjects            (* "No more objects in input" *)
| NullIterator             (* "internal error: null or empty iterator" *)
| NonObjectSearch          (* "Cannot search for a name in a non-object JSON node" *)
| NvpNotFound (n : string) (* "provided NVP (n) not found" *)
| NotCompound              (* "Current JSON node is neither an array nor an object" *)
| ParentNotCompound        (* "Parent JSON node is neither an array nor an object" *)
| RootNotCompound          (* "JSON root element is not an object or array" *)
| IncorrectType            (* a failing typed getter's [.value()] *)
| SizeMismatch             (* "Decoded binary data size does not match ..." *)
| EmptyStack.              (* [back()] / [pop_back()] on an empty vector *)

(** A state-and-error monad: an exception leaves the state as it was at
    the throw point. *)
Inductive result (S A : Type) :=
| Ok (x : A) (s : S)
| Err (e : error) (s : S).
Arguments Ok {S A}.
Arguments Err {S A}.

Definition M (S A : Type) := S -> result S A.

Definition ret {S A} (x : A) : M S A := fun s => Ok x s.
Definition throw {S A} (e : error) : M S A := fun s => Err e s.
Definition bind {S A B} (m : M S A) (k : A -> M S B) : M S B :=
  fun s => match m s with Ok x s' => k x s' | Err e s' => Err e s' end.

Declare Scope rmonad_scope.
Notation "x <- m ;; k" := (bind m (fun x => k))
  (at level 61, m at next level, right associativity) : rmonad_scope.
Notation "m ;; k" := (bind m (fun _ => k))
  (at level 61, right associativity) : rmonad_scope.
Open Scope rmonad_scope.

(** [JSONInputArchive::Iterator]: a begin/end/current triple over an
    object's members or an array's values, positions counted from begin
    (so begin is [0] and end is the length). *)
Module Iterator.

Inductive t :=
| Object (kvs : list (string * element)) (cur : nat)
| Array (xs : list element) (cur : nat)
| Null_.

(** The two constructors: an empty range gives a [Null_] iterator. *)
Definition of_object (kvs : list (string * element)) : t :=
  match kvs with [] => Null_ | _ => Object kvs 0 end.

Definition of_array (xs : list element) : t :=
  match xs with [] => Null_ | _ => Array xs 0 end.

(** [operator++]: advances unless already at end. *)
Definition incr (it : t) : t :=
  match it with
  | Array xs c => if (c <? List.length xs)%nat then Array xs (S c) else it
  | Object kvs c => if (c <? List.length kvs)%nat then Object kvs (S c) else it
  | Null_ => Null_
  end.

Definition value (it : t) : element + error :=
  match it with
  | Array xs c =>
      match nth_error xs c with Some e => inl e | None => inr NoMoreObjects end
  | Object kvs c =>
      match nth_error kvs c with
      | Some (_, e) => inl e | None => inr NoMoreObjects end
  | Null_ => inr NullIterator
  end.

(** [name]: the current key, or [nullptr]. *)
Definition name (it : t) : option string :=
  match it with
  | Object kvs c =>
      match nth_error kvs c with Some (k, _) => Some k | None => None end
  | _ => None
  end.

(** The scan of [search]: [itsObjectItCurrent] walks from [i] towards
    end until a key equals [n]; returns the final position and whether
    it stopped on a match. *)
Fixpoint scan (n : string) (rest : list (string * element)) (i : nat)
  : nat * bool :=
  match rest with
  | [] => (i, false)
  | (k, _) :: rest' => if String.eqb k n then (i, true) else scan n rest' (S i)
  end.

(** [search]: reset to begin and scan; on failure the iterator is left
    where the scan stopped, at end. *)
Definition search (n : string) (it : t) : t * option error :=
  match it with
  | Object kvs _ =>
      let '(pos, found) := scan n kvs 0 in
      (Object kvs pos, if found then None else Some (NvpNotFound n))
  | _ => (it, Some NonObjectSearch)
  end.

(** [isValid]: not at end (a [Null_] iterator is never valid). *)
Definition isValid (it : t) : bool :=
  match it with
  | Array xs c => negb (Nat.eqb c (List.length xs))
  | Object kvs c => negb (Nat.eqb c (List.length kvs))
  | Null_ => false
  end.

End Iterator.

(** The input archive's members: [itsNextName], [itsIteratorStack]
    (the head of the list is [back()]) and [itsDocument]. *)
Module In.

Record JSONInputArchive := mkIn {
  itsNextName : option string;
  itsIteratorStack : list Iterator.t;
  itsDocument : element
}.


Definition get : M JSONInputArchive JSONInputArchive := fun s => Ok s s.
Definition put (s : JSONInputArchive) : M JSONInputArchive unit := fun _ => Ok tt s.

Definition set_stack (st : list Iterator.t) (s : JSONInputArchive) :=
  mkIn (itsNextName s) st (itsDocument s).

Definition set_next (n : option string) (s : JSONInputArchive) :=
  mkIn n (itsIteratorStack s) (itsDocument s).

(** [Init]: a single iterator over the root, which must be a compound. *)
Definition init (doc : element) : result JSONInputArchive unit :=
  match doc with
  | JArray xs => Ok tt (mkIn None [Iterator.of_array xs] doc)
  | JObject kvs => Ok tt (mkIn None [Iterator.of_object kvs] doc)
  | _ => Err RootNotCompound (mkIn None [] doc)
  end.

(** [getNodeName]: [itsIteratorStack.back().name()]. *)
Definition getNodeName : M JSONInputArchive (option string) :=
  s <- get ;;
  match itsIteratorStack s with
  | it :: _ => ret (Iterator.name it)
  | [] => throw EmptyStack
  end.

(** [setNextName]. *)
Definition setNextName (n : option string) : M JSONInputArchive unit :=
  s <- get ;; put (set_next n s).

(** [itsIteratorStack.back().value()]. *)
Definition back_value : M JSONInputArchive element :=
  s <- get ;;
  match itsIteratorStack s with
  | it :: _ =>
      match Iterator.value it with
      | inl e => ret e
      | inr err => throw err
      end
  | [] => throw EmptyStack
  end.

(** [++itsIteratorStack.back()]. *)
Definition incr_back : M JSONInputArchive unit :=
  s <- get ;;
  match itsIteratorStack s with
  | it :: rest => put (set_stack (Iterator.incr it :: rest) s)
  | [] => throw EmptyStack
  end.

(** [search]: take and clear the pending name; if it differs from the
    current key (or there is none), search the current level. *)
Definition search : M JSONInputArchive unit :=
  s <- get ;;
  let localNextName := itsNextName s in
  let s := set_next None s in
  match localNextName with
  | None => put s
  | Some n =>
      match itsIteratorStack s with
      | it :: rest =>
          match Iterator.name it with
          | Some actual => if String.eqb n actual then put s else
              let '(it', r) := Iterator.search n it in
              put (set_stack (it' :: rest) s) ;;
              match r with None => ret tt | Some e => throw e end
          | None =>
              let '(it', r) := Iterator.search n it in
              put (set_stack (it' :: rest) s) ;;
              match r with None => ret tt | Some e => throw e end
          end
      | [] => put s ;; throw EmptyStack
      end
  end.

(** The shape shared by the scalar [loadValue] overloads:
    [search(); val = back().value().get_X().value(); ++back();]. *)
Definition load_with {A} (getter : element -> option A) : M JSONInputArchive A :=
  search ;;
  e <- back_value ;;
  match getter e with
  | Some x => incr_back ;; ret x
  | None => throw IncorrectType
  end.

Definition loadValue_bool : M JSONInputArchive bool := load_with get_bool.
Definition loadValue_int64 : M JSONInputArchive Z := load_with get_int64.
Definition loadValue_uint64 : M JSONInputArchive Z := load_with get_uint64.
Definition loadValue_string : M JSONInputArchive string := load_with get_string.

(** [static_cast] of a 64-bit integer to a [w]-bit signed / unsigned
    type: reduction modulo [2^w] (into the signed range for signed). *)
Definition wrap_signed (w : Z) (z : Z) : Z :=
  (z + 2 ^ (w - 1)) mod 2 ^ w - 2 ^ (w - 1).
Definition wrap_unsigned (w : Z) (z : Z) : Z := z mod 2 ^ w.

(** The small signed overload ([is_signed_v<T> && sizeof(T) < 8]),
    for a [w]-bit [T]. *)
Definition loadValue_small_signed (w : Z) : M JSONInputArchive Z :=
  search ;;
  e <- back_value ;;
  match get_int64 e with
  | Some z => let val := wrap_signed w z in incr_back ;; ret val
  | None => throw IncorrectType
  end.

(** The small unsigned overload ([is_unsigned_v<T> && sizeof(T) < 8],
    [T] not [bool]), for a [w]-bit [T]. *)
Definition loadValue_small_unsigned (w : Z) : M JSONInputArchive Z :=
  search ;;
  e <- back_value ;;
  match get_uint64 e with
  | Some z => let val := wrap_unsigned w z in incr_back ;; ret val
  | None => throw IncorrectType
  end.

(** [startNode]. *)
Definition startNode : M JSONInputArchive unit :=
  search ;;
  v <- back_value ;;
  s <- get ;;
  match v with
  | JArray xs => put (set_stack (Iterator.of_array xs :: itsIteratorStack s) s)
  | JObject kvs => put (set_stack (Iterator.of_object kvs :: itsIteratorStack s) s)
  | _ => throw NotCompound
  end.

(** [finishNode]. *)
Definition finishNode : M JSONInputArchive unit :=
  s <- get ;;
  match itsIteratorStack s with
  | _ :: [] => put (set_stack [] s)
  | _ :: parent :: rest => put (set_stack (Iterator.incr parent :: rest) s)
  | [] => throw EmptyStack
  end.

Definition compound_size (e : element) : option nat :=
  match e with
  | JArray xs => Some (List.length xs)
  | JObject kvs => Some (List.length kvs)
  | _ => None
  end.

(** [loadSize]. *)
Definition loadSize : M JSONInputArchive nat :=
  s <- get ;;
  match itsIteratorStack s with
  | [_] =>
      match itsDocument s with
      | JArray xs => ret (List.length xs)
      | JObject kvs => ret (List.length kvs)
      | _ => throw IncorrectType       (* get_object().value() *)
      end
  | _ :: parent :: _ =>
      match Iterator.value parent with
      | inl e =>
          match compound_size e with
          | Some n => ret n
          | None => throw ParentNotCompound
          end
      | inr err => throw err
      end
  | [] => throw EmptyStack
  end.

End In.

(* ================================================================== *)
(** ** The byte/text codec (ser20/external/base64.hpp) *)

(** Modelled from the spec: the external byte-to-text codec through which
    binary blobs are embedded in JSON strings ("encoding a byte buffer of
    length N ... and decoding yields the original N bytes"), written as the
    base64 codec that [saveBinaryValue] names: three bytes become four
    characters of [chars], a short last group is padded with ['='];
    decoding reads characters up to the first ['='] or non-base64
    character, four at a time, and a short last group of [i] characters
    yields [i - 1] bytes.  Bytes are handled as [unsigned char] values. *)
Module Base64.

Definition chars : string :=
  "ABCDEFGHIJKLMNOPQRSTUVWXYZabcdefghijklmnopqrstuvwxyz0123456789+/".

Definition uchar (b : byte) : Z := Z.of_N (Byte.to_N b).

(** Assignment to an [unsigned char]. *)
Definition to_uchar (z : Z) : byte :=
  match Byte.of_N (Z.to_N (z mod 256)) with Some b => b | None => Byte.x00 end.

Definition char_at (i : Z) : ascii :=
  match String.get (Z.to_nat i) chars with Some c => c | None => "="%char end.

(** [char_array_4] computed from [char_array_3]. *)
Definition enc4 (a b c : Z) : list Z :=
  [ Z.shiftr (Z.land a 252) 2;
    Z.shiftl (Z.land a 3) 4 + Z.shiftr (Z.land b 240) 4;
    Z.shiftl (Z.land b 15) 2 + Z.shiftr (Z.land c 192) 6;
    Z.land c 63 ].

(** The indices written by [encode]: full groups, then for a last group
    of [i] bytes (zero-filled) its first [i + 1] indices. *)
Fixpoint encode_indices (bs : list Z) : list Z :=
  match bs with
  | a :: b :: c :: rest => enc4 a b c ++ encode_indices rest
  | [a; b] => firstn 3 (enc4 a b 0)
  | [a] => firstn 2 (enc4 a 0 0)
  | [] => []
  end.

Fixpoint padding (bs : list Z) : string :=
  match bs with
  | _ :: _ :: _ :: rest => padding rest
  | [_; _] => "="
  | [_] => "=="
  | [] => ""
  end.

Definition encode (bytes : list byte) : string :=
  let zs := map uchar bytes in
  (string_of_list_ascii (map char_at (encode_indices zs)) ++ padding zs)%string.

Definition is_base64 (c : ascii) : bool :=
  let n := nat_of_ascii c in
  ((48 <=? n) && (n <=? 57))%nat || ((65 <=? n) && (n <=? 90))%nat
  || ((97 <=? n) && (n <=? 122))%nat
  || Ascii.eqb c "+"%char || Ascii.eqb c "/"%char.

(** [chars.find(c)] cast to [unsigned char]: [npos] becomes [255]. *)
Fixpoint find (c : ascii) (s : string) (i : Z) : Z :=
  match s with
  | EmptyString => 255
  | String c' s' => if Ascii.eqb c c' then i else find c s' (i + 1)
  end.

(** The characters the decoding loop consumes. *)
Fixpoint take_base64 (s : string) : list ascii :=
  match s with
  | EmptyString => []
  | String c s' =>
      if negb (Ascii.eqb c "="%char) && is_base64 c then c :: take_base64 s'
      else []
  end.

(** [char_array_3] computed from [char_array_4], stored as
    [unsigned char]. *)
Definition dec3 (s0 s1 s2 s3 : Z) : list Z :=
  [ (Z.shiftl s0 2 + Z.shiftr (Z.land s1 48) 4) mod 256;
    (Z.shiftl (Z.land s1 15) 4 + Z.shiftr (Z.land s2 60) 2) mod 256;
    (Z.shiftl (Z.land s2 3) 6 + s3) mod 256 ].

(** Full groups of four indices give three bytes; a last group of [i]
    indices is filled with [find('\0') = 255] and gives [i - 1] bytes. *)
Fixpoint decode_indices (l : list Z) : list Z :=
  match l with
  | s0 :: s1 :: s2 :: s3 :: rest => dec3 s0 s1 s2 s3 ++ decode_indices rest
  | [s0; s1; s2] => firstn 2 (dec3 s0 s1 s2 255)
  | [s0; s1] => firstn 1 (dec3 s0 s1 255 255)
  | [_] => []
  | [] => []
  end.

Definition decode (s : string) : list byte :=
  map to_uchar (decode_indices (map (fun c => find c chars 0) (take_base64 s))).

End Base64.

(* ================================================================== *)
(** ** Binary blobs *)

(** [JSONOutputArchive::saveBinaryValue]. *)
Definition saveBinaryValue (data : list byte) (name : option string)
  (a : JSONOutputArchive) : option JSONOutputArchive :=
  match writeName (setNextName name a) with
  | Some a' => Some (saveValue (VString (Base64.encode data)) a')
  | None => None
  end.

(** [JSONInputArchive::loadBinaryValue], acting on the archive together
    with the caller's destination buffer [data]; [memcpy] writes the
    decoded bytes over the front of the buffer, after the size check. *)
Definition loadBinaryValue (size : nat) (name : option string)
  : M (In.JSONInputArchive * list byte) unit :=
  fun '(s, data) =>
    match In.loadValue_string (In.set_next name s) with
    | Err e s' => Err e (s', data)
    | Ok encoded s' =>
        let decoded := Base64.decode encoded in
        if negb (Nat.eqb size (List.length decoded)) then Err SizeMismatch (s', data)
        else Ok tt (In.set_next None s',
                    decoded ++ skipn (List.length decoded) data)
    end.

(* ================================================================== *)
(** * Compositions used by the properties *)

(** Three reads at one object level: without names, and by name in the
    order [c], [a], [b]. *)
Section Reads.
Context {A : Type} (g : element -> option A).

Definition read_abc : M In.JSONInputArchive (A * A * A) :=
  x <- In.load_with g ;; y <- In.load_with g ;; z <- In.load_with g ;; ret (x, y, z).

Definition read_cab (a b c : string) : M In.JSONInputArchive (A * A * A) :=
  In.setNextName (Some c) ;; z <- In.load_with g ;;
  In.setNextName (Some a) ;; x <- In.load_with g ;;
  In.setNextName (Some b) ;; y <- In.load_with g ;; ret (x, y, z).
End Reads.

(** The document a fresh archive writes for one binary value. *)
Definition binary_doc_tokens (data : list byte) (name : option string) : option (list token) :=
  match run_out [saveBinaryValue data name] out_init with
  | Some a => destroy a
  | None => None
  end.

(** The document a fresh archive writes for one empty node (an array when
    [arr]), and the reads that open it and ask for its size. *)
Definition empty_node_tokens (n : option string) (arr : bool) : option (list token) :=
  match run_out ([set_name n; startNode] ++ (if arr then [makeArray] else [])
                 ++ [finishNode]) out_init with
  | Some a => destroy a
  | None => None
  end.

Definition read_empty_node (n : option string) : M In.JSONInputArchive nat :=
  In.setNextName n ;; In.startNode ;; In.loadSize.


(** Nesting depth left open by a sequence of writer calls. *)
Definition delta (t : token) : Z :=
  match t with
  | TStartObject | TStartArray => 1
  | TEndObject | TEndArray => -1
  | _ => 0
  end.

Definition depth (ts : list token) : Z := fold_right (fun t d => delta t + d) 0 ts.

Definition opened (nt : NodeType) : Z :=
  match nt with InObject | InArray => 1 | _ => 0 end.

Definition count_opened (ns : list NodeType) : Z := fold_right (fun nt d => opened nt + d) 0 ns.

(** The calls through which the framework drives an output archive: the
    prologue/epilogue pairs of nested values ([finishNode] never pops the
    root), names, scalars, binary values and [makeArray] on a fresh node. *)
Inductive step : JSONOutputArchive -> JSONOutputArchive -> Prop :=
| step_startNode a a' : startNode a = Some a' -> step a a'
| step_finishNode a a' : (2 <= List.length (itsNodeStack a))%nat ->
    finishNode a = Some a' -> step a a'
| step_setNextName a n : step a (setNextName n a)
| step_save a v a' : save v a = Some a' -> step a a'
| step_saveBinaryValue a d n a' : saveBinaryValue d n a = Some a' -> step a a'
| step_makeArray a a' : hd_error (itsNodeStack a) = Some StartObject ->
    makeArray a = Some a' -> step a a'.

Inductive reachable : JSONOutputArchive -> Prop :=
| reachable_init : reachable out_init
| reachable_step a a' : reachable a -> step a a' -> reachable a'.

(** What every reachable archive satisfies: one counter per node, the root
    at the bottom, every node above the root opened, and exactly the opened
    nodes left unclosed in the output. *)
Definition out_inv (a : JSONOutputArchive) : Prop :=
  List.length (itsNodeStack a) = List.length (itsNameCounter a) /\
  itsNodeStack a <> [] /\
  Forall (fun nt => opened nt = 1) (tl (itsNodeStack a)) /\
  depth (itsWriter a) = count_opened (itsNodeStack a).


(* ================================================================== *)
(** * Further compositions of the archives' operations *)

(** [k] successive scalar loads ([ar(x1); ...; ar(xk)]) with one getter. *)
Fixpoint load_n {A} (g : element -> option A) (k : nat) : M In.JSONInputArchive (list A) :=
  match k with
  | O => ret []
  | S k' => x <- In.load_with g ;; xs <- load_n g k' ;; ret (x :: xs)
  end.

(** An iterator's cursor lies within its compound: [0 <= index <= size]. *)
Definition it_bounded (it : Iterator.t) : bool :=
  match it with
  | Iterator.Object kvs c => (c <=? List.length kvs)%nat
  | Iterator.Array xs c => (c <=? List.length xs)%nat
  | Iterator.Null_ => true
  end.

(** Every iterator on the stack is bounded. *)
Definition stack_bounded (s : In.JSONInputArchive) : bool :=
  forallb it_bounded (In.itsIteratorStack s).

(** The archive after an operation, whether it succeeded or threw. *)
Definition state_of {S A} (r : result S A) : S :=
  match r with Ok _ s => s | Err _ s => s end.

(** An operation keeps all cursors in range, also when it throws. *)
Definition preserves {A} (m : M In.JSONInputArchive A) : Prop :=
  forall s, stack_bounded s = true -> stack_bounded (state_of (m s)) = true.

(** [ar(make_nvp(n, v))] ([setNextName(n); ar(v)]) or [ar(v)]. *)
Definition member_ops (m : option string * scalar) : list out_op :=
  match m with
  | (Some n, v) => [set_name (Some n); save v]
  | (None, v) => [save v]
  end.

(** The calls saving a sequence of (optionally named) members. *)
Definition members_ops (ms : list (option string * scalar)) : list out_op :=
  flat_map member_ops ms.

(** The tokens [writeName]/[saveValue] emit for those members inside an
    object whose name counter is [c]: an explicit name is written as is,
    an unnamed member gets ["value" + to_string(counter++)]. *)
Fixpoint keyed (c : Z) (ms : list (option string * scalar)) : list token :=
  match ms with
  | [] => []
  | (Some n, v) :: r => TString n :: scalar_token v :: keyed c r
  | (None, v) :: r => TString ("value" ++ to_string c)%string :: scalar_token v
                      :: keyed ((c + 1) mod 2 ^ 32) r
  end.

(** How many members carry no name. *)
Definition count_unnamed (ms : list (option string * scalar)) : Z :=
  Z.of_nat (List.length (filter (fun m => match fst m with None => true | _ => false end) ms)).

(** A scalar value lies in the range of its C++ type ([int] and
    [unsigned] are 32-bit, the others 64-bit). *)
Definition scalar_fits (v : scalar) : bool :=
  match v with
  | VBool _ | VString _ | VNull => true
  | VInt z => (- 2 ^ 31 <=? z) && (z <? 2 ^ 31)
  | VUnsigned z => (0 <=? z) && (z <? 2 ^ 32)
  | VInt64 z => (int64_min <=? z) && (z <=? int64_max)
  | VUint64 z => (0 <=? z) && (z <=? uint64_max)
  end.

(** The [loadValue] overload that reads back a value of the scalar's C++
    type ([int] and [unsigned] go through the small-integer overloads). *)
Definition scalar_loader (v : scalar) : option (M In.JSONInputArchive scalar) :=
  match v with
  | VBool _ => Some (b <- In.loadValue_bool ;; ret (VBool b))
  | VInt _ => Some (z <- In.loadValue_small_signed 32 ;; ret (VInt z))
  | VUnsigned _ => Some (z <- In.loadValue_small_unsigned 32 ;; ret (VUnsigned z))
  | VInt64 _ => Some (z <- In.loadValue_int64 ;; ret (VInt64 z))
  | VUint64 _ => Some (z <- In.loadValue_uint64 ;; ret (VUint64 z))
  | VString _ => Some (s <- In.loadValue_string ;; ret (VString s))
  | VNull => None
  end.

(** The document of a fresh archive that saved one (optionally named)
    scalar and was destroyed. *)
Definition scalar_doc_tokens (name : option string) (v : scalar) : option (list token) :=
  match run_out [set_name name; save v] out_init with
  | Some a => destroy a
  | None => None
  end.

(** The key under which that scalar is written. *)
Definition key_of (name : option string) : string :=
  match name with Some n => n | None => "value0"%string end.

(* ================================================================== *)
(** * Proofs *)

(** ** The codec round trip *)

Module B64.
Import Base64.

Definition below (n : nat) : list Z := map Z.of_nat (seq 0 n).

Lemma below_spec (n : nat) (f : Z -> bool) :
  forallb f (below n) = true -> forall x, 0 <= x < Z.of_nat n -> f x = true.
Proof.
  unfold below. rewrite forallb_forall. intros Hall x Hx.
  apply Hall. apply in_map_iff. exists (Z.to_nat x). split; [lia|].
  apply in_seq. lia.
Qed.

Lemma land_masks x : 0 <= x < 256 ->
  Z.land x 252 = 4 * (x / 4) /\ Z.land x 3 = x mod 4 /\
  Z.land x 240 = 16 * (x / 16) /\ Z.land x 15 = x mod 16 /\
  Z.land x 192 = 64 * (x / 64) /\ Z.land x 63 = x mod 64 /\
  Z.land x 48 = 16 * ((x / 16) mod 4) /\ Z.land x 60 = 4 * ((x / 4) mod 16).
Proof.
  intros Hx.
  pose proof (below_spec 256 (fun x =>
    (Z.land x 252 =? 4 * (x / 4)) && (Z.land x 3 =? x mod 4) &&
    (Z.land x 240 =? 16 * (x / 16)) && (Z.land x 15 =? x mod 16) &&
    (Z.land x 192 =? 64 * (x / 64)) && (Z.land x 63 =? x mod 64) &&
    (Z.land x 48 =? 16 * ((x / 16) mod 4)) && (Z.land x 60 =? 4 * ((x / 4) mod 16)))
    ltac:(vm_compute; reflexivity) x ltac:(simpl; lia)) as H.
  repeat rewrite andb_true_iff in H. repeat rewrite Z.eqb_eq in H. tauto.
Qed.

Lemma shiftr_2 x : Z.shiftr x 2 = x / 4.
Proof. rewrite Z.shiftr_div_pow2 by lia. reflexivity. Qed.
Lemma shiftr_4 x : Z.shiftr x 4 = x / 16.
Proof. rewrite Z.shiftr_div_pow2 by lia. reflexivity. Qed.
Lemma shiftr_6 x : Z.shiftr x 6 = x / 64.
Proof. rewrite Z.shiftr_div_pow2 by lia. reflexivity. Qed.
Lemma shiftl_2 x : Z.shiftl x 2 = x * 4.
Proof. rewrite Z.shiftl_mul_pow2 by lia. reflexivity. Qed.
Lemma shiftl_4 x : Z.shiftl x 4 = x * 16.
Proof. rewrite Z.shiftl_mul_pow2 by lia. reflexivity. Qed.
Lemma shiftl_6 x : Z.shiftl x 6 = x * 64.
Proof. rewrite Z.shiftl_mul_pow2 by lia. reflexivity. Qed.

Ltac shifts := rewrite ?shiftr_2, ?shiftr_4, ?shiftr_6, ?shiftl_2, ?shiftl_4, ?shiftl_6.

Lemma mul_div k x : 0 < k -> k * x / k = x.
Proof. intros. rewrite Z.mul_comm. apply Z.div_mul. lia. Qed.

Lemma enc_byte0 a b : 0 <= a < 256 -> 0 <= b < 256 ->
  (Z.shiftl (Z.shiftr (Z.land a 252) 2) 2 +
   Z.shiftr (Z.land (Z.shiftl (Z.land a 3) 4 + Z.shiftr (Z.land b 240) 4) 48) 4) mod 256 = a.
Proof.
  intros Ha Hb.
  destruct (land_masks a Ha) as (A1 & A2 & _).
  destruct (land_masks b Hb) as (_ & _ & B3 & _).
  rewrite A1, A2, B3. shifts. rewrite !mul_div by lia.
  assert (He : 0 <= a mod 4 * 16 + b / 16 < 256) by (Z.div_mod_to_equations; lia).
  destruct (land_masks _ He) as (_ & _ & _ & _ & _ & _ & E7 & _).
  rewrite E7, mul_div by lia.
  Z.div_mod_to_equations; lia.
Qed.
Lemma enc_byte1 a b c : 0 <= a < 256 -> 0 <= b < 256 -> 0 <= c < 256 ->
  (Z.shiftl (Z.land (Z.shiftl (Z.land a 3) 4 + Z.shiftr (Z.land b 240) 4) 15) 4 +
   Z.shiftr (Z.land (Z.shiftl (Z.land b 15) 2 + Z.shiftr (Z.land c 192) 6) 60) 2)
    mod 256 = b.
Proof.
  intros Ha Hb Hc.
  destruct (land_masks a Ha) as (_ & A2 & _).
  destruct (land_masks b Hb) as (_ & _ & B3 & B4 & _).
  destruct (land_masks c Hc) as (_ & _ & _ & _ & C5 & _).
  rewrite A2, B3, B4, C5. shifts. rewrite !mul_div by lia.
  assert (H1 : 0 <= a mod 4 * 16 + b / 16 < 256) by (Z.div_mod_to_equations; lia).
  assert (H2 : 0 <= b mod 16 * 4 + c / 64 < 256) by (Z.div_mod_to_equations; lia).
  destruct (land_masks _ H1) as (_ & _ & _ & E4 & _).
  destruct (land_masks _ H2) as (_ & _ & _ & _ & _ & _ & _ & F8).
  rewrite E4, F8, mul_div by lia.
  Z.div_mod_to_equations; lia.
Qed.

Lemma enc_byte2 b c : 0 <= b < 256 -> 0 <= c < 256 ->
  (Z.shiftl (Z.land (Z.shiftl (Z.land b 15) 2 + Z.shiftr (Z.land c 192) 6) 3) 6 +
   Z.land c 63) mod 256 = c.
Proof.
  intros Hb Hc.
  destruct (land_masks b Hb) as (_ & _ & _ & B4 & _).
  destruct (land_masks c Hc) as (_ & _ & _ & _ & C5 & C6 & _).
  rewrite B4, C5, C6. shifts. rewrite !mul_div by lia.
  assert (H2 : 0 <= b mod 16 * 4 + c / 64 < 256) by (Z.div_mod_to_equations; lia).
  destruct (land_masks _ H2) as (_ & E2 & _).
  rewrite E2.
  Z.div_mod_to_equations; lia.
Qed.

Lemma enc4_range a b c : 0 <= a < 256 -> 0 <= b < 256 -> 0 <= c < 256 ->
  Forall (fun i => 0 <= i < 64) (enc4 a b c).
Proof.
  intros Ha Hb Hc.
  destruct (land_masks a Ha) as (A1 & A2 & _).
  destruct (land_masks b Hb) as (_ & _ & B3 & B4 & _).
  destruct (land_masks c Hc) as (_ & _ & _ & _ & C5 & C6 & _).
  unfold enc4. rewrite A1, A2, B3, B4, C5, C6. shifts. rewrite !mul_div by lia.
  repeat constructor; Z.div_mod_to_equations; lia.
Qed.

Definition byte_range (z : Z) : Prop := 0 <= z < 256.

Lemma Forall_firstn_Z (P : Z -> Prop) n l : Forall P l -> Forall P (firstn n l).
Proof.
  revert l; induction n as [|n IHn]; intros [|x l] H; simpl; try constructor.
  - inversion H; assumption.
  - apply IHn. inversion H; assumption.
Qed.

Lemma encode_indices_range zs : Forall byte_range zs ->
  Forall (fun i => 0 <= i < 64) (encode_indices zs).
Proof.
  revert zs. fix IH 1. intros [|a [|b [|c rest]]] H.
  - constructor.
  - inversion H as [|? ? Ha _]; subst.
    apply Forall_firstn_Z, enc4_range; unfold byte_range in *; lia.
  - inversion H as [|? ? Ha H']; inversion H' as [|? ? Hb _]; subst.
    apply Forall_firstn_Z, enc4_range; unfold byte_range in *; lia.
  - inversion H as [|? ? Ha H']; inversion H' as [|? ? Hb H'']; inversion H'' as [|? ? Hc Hr]; subst.
    apply Forall_app. split; [apply enc4_range; assumption | apply IH; assumption].
Qed.

Lemma decode_encode_indices zs : Forall byte_range zs ->
  decode_indices (encode_indices zs) = zs.
Proof.
  revert zs. fix IH 1. intros [|a [|b [|c rest]]] H.
  - reflexivity.
  - inversion H as [|? ? Ha _]; subst. unfold byte_range in *.
    cbn [encode_indices decode_indices enc4 dec3 firstn].
    rewrite enc_byte0 by lia. reflexivity.
  - inversion H as [|? ? Ha H']; inversion H' as [|? ? Hb _]; subst. unfold byte_range in *.
    cbn [encode_indices decode_indices enc4 dec3 firstn].
    rewrite enc_byte0, (enc_byte1 a b 0) by lia. reflexivity.
  - inversion H as [|? ? Ha H']; inversion H' as [|? ? Hb H'']; inversion H'' as [|? ? Hc Hr]; subst.
    unfold byte_range in *.
    cbn [encode_indices decode_indices enc4 dec3 app].
    rewrite IH by assumption.
    rewrite enc_byte0, (enc_byte1 a b c), enc_byte2 by lia. reflexivity.
Qed.

Lemma char_at_spec i : 0 <= i < 64 ->
  find (char_at i) chars 0 = i /\ is_base64 (char_at i) = true /\
  Ascii.eqb (char_at i) "="%char = false.
Proof.
  intros Hi.
  pose proof (below_spec 64 (fun i =>
    (find (char_at i) chars 0 =? i) && is_base64 (char_at i) &&
    negb (Ascii.eqb (char_at i) "="%char))
    ltac:(vm_compute; reflexivity) i ltac:(simpl; lia)) as H.
  repeat rewrite andb_true_iff in H. rewrite Z.eqb_eq, negb_true_iff in H. tauto.
Qed.

Lemma take_base64_indices l p : Forall (fun i => 0 <= i < 64) l ->
  take_base64 p = [] ->
  take_base64 (string_of_list_ascii (map char_at l) ++ p) = map char_at l.
Proof.
  intros Hl Hp. induction Hl as [|i l Hi Hl IHl]; simpl.
  - exact Hp.
  - destruct (char_at_spec i Hi) as (_ & Hb & He).
    rewrite He, Hb. simpl. rewrite IHl. reflexivity.
Qed.

Lemma take_base64_padding zs : take_base64 (padding zs) = [].
Proof.
  revert zs. fix IH 1. intros [|a [|b [|c rest]]]; try reflexivity.
  cbn [padding]. apply IH.
Qed.

Lemma uchar_range b : byte_range (uchar b).
Proof.
  unfold byte_range, uchar. pose proof (Byte.to_N_bounded b). lia.
Qed.

Lemma to_uchar_uchar b : to_uchar (uchar b) = b.
Proof.
  unfold to_uchar, uchar.
  rewrite Z.mod_small by (pose proof (Byte.to_N_bounded b); lia).
  rewrite N2Z.id, Byte.of_to_N. reflexivity.
Qed.

Lemma decode_encode bytes : decode (encode bytes) = bytes.
Proof.
  unfold decode, encode.
  assert (Hr : Forall byte_range (map uchar bytes)).
  { apply Forall_forall. intros z Hz. apply in_map_iff in Hz.
    destruct Hz as (b & <- & _). apply uchar_range. }
  pose proof (encode_indices_range _ Hr) as Hi.
  rewrite take_base64_indices by (assumption || apply take_base64_padding).
  rewrite map_map.
  rewrite (map_ext_in _ (fun i => i)) by
    (intros i Hin; apply (proj1 (char_at_spec i (proj1 (Forall_forall _ _) Hi i Hin)))).
  rewrite map_id, decode_encode_indices by assumption.
  rewrite map_map. rewrite (map_ext _ (fun b => b)) by apply to_uchar_uchar.
  apply map_id.
Qed.

End B64.

(** ** Named lookups on the read side *)

Lemma scan_found n kvs i pos :
  Iterator.scan n kvs i = (pos, true) ->
  exists e, (i <= pos)%nat /\ nth_error kvs (pos - i) = Some (n, e).
Proof.
  revert i. induction kvs as [|[k e] kvs IH]; intros i H; simpl in H.
  - discriminate.
  - destruct (String.eqb_spec k n) as [->|Hne].
    + inversion H; subst. exists e. rewrite Nat.sub_diag. split; [lia|reflexivity].
    + destruct (IH (S i) H) as (e' & Hle & Hn). exists e'. split; [lia|].
      replace (pos - i)%nat with (S (pos - S i)) by lia. exact Hn.
Qed.

Lemma scan_missing n kvs i :
  ~ List.In n (map fst kvs) -> Iterator.scan n kvs i = (i + List.length kvs, false)%nat.
Proof.
  revert i. induction kvs as [|[k e] kvs IH]; intros i Hn; simpl.
  - rewrite Nat.add_0_r. reflexivity.
  - destruct (String.eqb_spec k n) as [->|Hne].
    + exfalso. apply Hn. left. reflexivity.
    + rewrite IH by (intros H; apply Hn; right; exact H).
      f_equal. lia.
Qed.

Lemma scan_false n kvs i pos :
  Iterator.scan n kvs i = (pos, false) ->
  ~ List.In n (map fst kvs) /\ pos = (i + List.length kvs)%nat.
Proof.
  revert i. induction kvs as [|[k e] kvs IH]; intros i H; simpl in H |- *.
  - inversion H. split; [tauto|lia].
  - destruct (String.eqb_spec k n) as [->|Hne]; [discriminate|].
    destruct (IH (S i) H) as [Hn Hp]. split; [|lia].
    intros [E|E]; [congruence|tauto].
Qed.

Lemma search_object n kvs cur rest doc :
  (exists i e, nth_error kvs i = Some (n, e) /\
     In.search (In.mkIn (Some n) (Iterator.Object kvs cur :: rest) doc)
     = Ok tt (In.mkIn None (Iterator.Object kvs i :: rest) doc))
  \/ (~ List.In n (map fst kvs) /\
     In.search (In.mkIn (Some n) (Iterator.Object kvs cur :: rest) doc)
     = Err (NvpNotFound n)
         (In.mkIn None (Iterator.Object kvs (List.length kvs) :: rest) doc)).
Proof.
  assert (Hscan : (exists i e, nth_error kvs i = Some (n, e) /\
     In.search (In.mkIn (Some n) (Iterator.Object kvs cur :: rest) doc)
     = Ok tt (In.mkIn None (Iterator.Object kvs i :: rest) doc))
    \/ (~ List.In n (map fst kvs) /\
     In.search (In.mkIn (Some n) (Iterator.Object kvs cur :: rest) doc)
     = Err (NvpNotFound n)
         (In.mkIn None (Iterator.Object kvs (List.length kvs) :: rest) doc))
    \/ False).
  2: tauto.
  unfold In.search, bind, In.get, In.put, ret, throw, In.set_next, In.set_stack; simpl.
  destruct (Iterator.scan n kvs 0) as [pos [|]] eqn:Hs.
  - destruct (scan_found _ _ _ _ Hs) as (e & _ & He). rewrite Nat.sub_0_r in He.
    destruct (nth_error kvs cur) as [[k ek]|] eqn:Hcur.
    + destruct (String.eqb_spec n k) as [->|Hne].
      * left. exists cur, ek. split; [exact Hcur|reflexivity].
      * left. exists pos, e. split; [exact He|reflexivity].
    + left. exists pos, e. split; [exact He|reflexivity].
  - destruct (scan_false _ _ _ _ Hs) as [Hn ->].
    destruct (nth_error kvs cur) as [[k ek]|] eqn:Hcur.
    + destruct (String.eqb_spec n k) as [->|Hne].
      * exfalso. apply Hn. apply in_map_iff. exists (k, ek). split; [reflexivity|].
        eapply nth_error_In; exact Hcur.
      * right. left. split; [exact Hn|reflexivity].
    + right. left. split; [exact Hn|reflexivity].
Qed.

Lemma load_at {A} (g : element -> option A) kvs i k e rest doc :
  nth_error kvs i = Some (k, e) ->
  In.load_with g (In.mkIn None (Iterator.Object kvs i :: rest) doc) =
  match g e with
  | Some x => Ok x (In.mkIn None (Iterator.Object kvs (S i) :: rest) doc)
  | None => Err IncorrectType (In.mkIn None (Iterator.Object kvs i :: rest) doc)
  end.
Proof.
  intros Hi.
  assert (Hlt : (i < List.length kvs)%nat) by (apply nth_error_Some; congruence).
  unfold In.load_with, In.search, In.back_value, In.incr_back, bind, In.get, In.put,
    ret, throw, In.set_next, In.set_stack; simpl.
  rewrite Hi. destruct (g e); [|reflexivity].
  cbn - [Nat.ltb]. rewrite (proj2 (Nat.ltb_lt _ _) Hlt). reflexivity.
Qed.

Lemma search_none s : In.itsNextName s = None -> In.search s = Ok tt s.
Proof.
  destruct s as [nn st doc]; simpl; intros ->. reflexivity.
Qed.

Lemma search_clears s :
  match In.search s with Ok _ s1 | Err _ s1 => In.itsNextName s1 = None end.
Proof.
  destruct s as [[n|] st doc]; [|reflexivity].
  unfold In.search, bind, In.get, In.put, ret, throw, In.set_next, In.set_stack; simpl.
  destruct st as [|it rest]; [reflexivity|].
  destruct (Iterator.name it) as [k|];
    [destruct (String.eqb n k); [reflexivity|]|];
    destruct (Iterator.search n it) as [it' [e|]]; reflexivity.
Qed.

Lemma load_with_split {A} (g : element -> option A) s :
  In.load_with g s =
  match In.search s with Ok _ s1 => In.load_with g s1 | Err e s1 => Err e s1 end.
Proof.
  pose proof (search_clears s) as Hc.
  unfold In.load_with at 1, bind at 1.
  destruct (In.search s) as [[] s1|e s1]; [|reflexivity].
  symmetry. unfold In.load_with at 1. unfold bind at 1.
  rewrite (search_none s1 Hc). reflexivity.
Qed.

Lemma named_lookup_resumes {A} (g : element -> option A) n kvs cur rest doc x s' :
  In.load_with g (In.mkIn (Some n) (Iterator.Object kvs cur :: rest) doc) = Ok x s' ->
  exists i e, nth_error kvs i = Some (n, e) /\ g e = Some x /\
    s' = In.mkIn None (Iterator.Object kvs (S i) :: rest) doc.
Proof.
  rewrite load_with_split. intros H.
  destruct (search_object n kvs cur rest doc) as [(i & e & Hi & Hs)|(_ & Hs)];
    rewrite Hs in H; [|discriminate].
  rewrite (load_at g kvs i n e rest doc Hi) in H.
  destruct (g e) eqn:Hg; inversion H; subst.
  exists i, e. auto.
Qed.

Lemma order_independence {A} (g : element -> option A) (a b c : string)
  (va vb vc : element) (x y z : A) rest doc :
  a <> b -> b <> c -> a <> c ->
  g va = Some x -> g vb = Some y -> g vc = Some z ->
  let s := In.mkIn None (Iterator.Object [(a, va); (b, vb); (c, vc)] 0 :: rest) doc in
  (exists s1, read_abc g s = Ok (x, y, z) s1) /\
  (exists s2, read_cab g a b c s = Ok (x, y, z) s2).
Proof.
  intros Hab Hbc Hac Hx Hy Hz s.
  assert (E1 : String.eqb a b = false) by (apply String.eqb_neq; exact Hab).
  assert (E2 : String.eqb b a = false) by (apply String.eqb_neq; congruence).
  assert (E3 : String.eqb b c = false) by (apply String.eqb_neq; exact Hbc).
  assert (E4 : String.eqb c b = false) by (apply String.eqb_neq; congruence).
  assert (E5 : String.eqb a c = false) by (apply String.eqb_neq; exact Hac).
  assert (E6 : String.eqb c a = false) by (apply String.eqb_neq; congruence).
  split; eexists; unfold read_abc, read_cab, s;
  unfold In.setNextName, In.load_with, In.search, In.back_value, In.incr_back, bind,
    In.get, In.put, ret, throw, In.set_next, In.set_stack;
  do 8 (cbn - [String.eqb]; repeat rewrite String.eqb_refl;
        rewrite ?Hx, ?Hy, ?Hz, ?E1, ?E2, ?E3, ?E4, ?E5, ?E6);
  reflexivity.
Qed.

(** C2: at an object level holding the fields [a], [b], [c] in that order,
    reading them by name in the order [c], [a], [b] gives the same three
    values as reading them without names in the order [a], [b], [c]; and
    after a named lookup succeeds, the cursor stands just after the matched
    field, so the next unnamed read takes the field that follows it. *)
Theorem named_reads {A} (g : element -> option A) (a b c : string)
  (va vb vc : element) (x y z : A) rest doc :
  a <> b -> b <> c -> a <> c ->
  g va = Some x -> g vb = Some y -> g vc = Some z ->
  ((exists s1, read_abc g (In.mkIn None (Iterator.Object [(a, va); (b, vb); (c, vc)] 0 :: rest) doc)
               = Ok (x, y, z) s1) /\
   (exists s2, read_cab g a b c
                 (In.mkIn None (Iterator.Object [(a, va); (b, vb); (c, vc)] 0 :: rest) doc)
               = Ok (x, y, z) s2)) /\
  (forall n kvs cur rest' doc' v s',
     In.load_with g (In.mkIn (Some n) (Iterator.Object kvs cur :: rest') doc') = Ok v s' ->
     exists i e, nth_error kvs i = Some (n, e) /\ g e = Some v /\
       s' = In.mkIn None (Iterator.Object kvs (S i) :: rest') doc' /\
       (forall k2 e2, nth_error kvs (S i) = Some (k2, e2) ->
          In.load_with g s' =
          match g e2 with
          | Some v2 => Ok v2 (In.mkIn None (Iterator.Object kvs (S (S i)) :: rest') doc')
          | None => Err IncorrectType s'
          end)).
Proof.
  intros Hab Hbc Hac Hx Hy Hz. split.
  - exact (order_independence g a b c va vb vc x y z rest doc Hab Hbc Hac Hx Hy Hz).
  - intros n kvs cur rest' doc' v s' H.
    destruct (named_lookup_resumes g n kvs cur rest' doc' v s' H) as (i & e & Hi & Hg & ->).
    exists i, e. split; [exact Hi|]. split; [exact Hg|]. split; [reflexivity|].
    intros k2 e2 H2. exact (load_at g kvs (S i) k2 e2 rest' doc' H2).
Qed.

Lemma named_reads_witness :
  exists s2, read_cab get_int64 "a"%string "b"%string "c"%string
    (In.mkIn None [Iterator.Object [("a"%string, JInt64 1); ("b"%string, JInt64 2);
                                    ("c"%string, JInt64 3)] 0] JNull) = Ok (1, 2, 3) s2.
Proof.
  exact (proj2 (proj1 (named_reads get_int64 "a"%string "b"%string "c"%string
    (JInt64 1) (JInt64 2) (JInt64 3) 1 2 3 [] JNull
    ltac:(discriminate) ltac:(discriminate) ltac:(discriminate) eq_refl eq_refl eq_refl))).
Defined.

(** C3 (amended): when the pending name is absent from the keys of the
    object at the top of the stack, resolving it fails with the not-found
    error naming it and clears the pending name, and the cursor is left at
    the end of the object's key range (where the scan stopped), not where it
    was; a load that resolves the name fails the same way. *)
Theorem search_missing_name n kvs cur rest doc :
  ~ List.In n (map fst kvs) ->
  In.search (In.mkIn (Some n) (Iterator.Object kvs cur :: rest) doc)
  = Err (NvpNotFound n) (In.mkIn None (Iterator.Object kvs (List.length kvs) :: rest) doc)
  /\ (forall A (g : element -> option A),
        In.load_with g (In.mkIn (Some n) (Iterator.Object kvs cur :: rest) doc)
        = Err (NvpNotFound n)
            (In.mkIn None (Iterator.Object kvs (List.length kvs) :: rest) doc)).
Proof.
  intros Hn.
  assert (Hs : In.search (In.mkIn (Some n) (Iterator.Object kvs cur :: rest) doc)
    = Err (NvpNotFound n) (In.mkIn None (Iterator.Object kvs (List.length kvs) :: rest) doc)).
  { destruct (search_object n kvs cur rest doc) as [(i & e & Hi & _)|(_ & Hs)]; [|exact Hs].
    exfalso. apply Hn. apply in_map_iff. exists (n, e). split; [reflexivity|].
    eapply nth_error_In; exact Hi. }
  split; [exact Hs|]. intros A g. rewrite load_with_split, Hs. reflexivity.
Qed.

Lemma search_missing_name_witness :
  In.search (In.mkIn (Some "z"%string) [Iterator.Object [("a"%string, JInt64 1)] 0] JNull)
  = Err (NvpNotFound "z") (In.mkIn None [Iterator.Object [("a"%string, JInt64 1)] 1] JNull).
Proof.
  refine (proj1 (search_missing_name "z" [("a"%string, JInt64 1)] 0 [] JNull _)).
  simpl. intros [H|[]]. discriminate H.
Defined.

(** C3: a failed lookup moves the cursor: at position 0 of the object
    [{"a": 1}], looking up ["z"] fails and leaves the cursor at position 1. *)
Example search_missing_moves_cex :
  let s := In.mkIn (Some "z"%string) [Iterator.Object [("a"%string, JInt64 1)] 0]
                   (JObject [("a"%string, JInt64 1)]) in
  In.search s = Err (NvpNotFound "z")
                 (In.mkIn None [Iterator.Object [("a"%string, JInt64 1)] 1]
                          (JObject [("a"%string, JInt64 1)]))
  /\ [Iterator.Object [("a"%string, JInt64 1)] 1] <> In.itsIteratorStack s.
Proof.
  split; [reflexivity|]. simpl. congruence.
Qed.

(** C9: when the top cursor is an array cursor, resolving a pending name
    fails with the non-object error, clears the name and leaves the cursor
    where it was; a load or a node opening that resolves the name fails the
    same way. *)
Theorem array_search_fails xs cur rest doc n :
  In.search (In.mkIn (Some n) (Iterator.Array xs cur :: rest) doc)
  = Err NonObjectSearch (In.mkIn None (Iterator.Array xs cur :: rest) doc)
  /\ (forall A (g : element -> option A),
        In.load_with g (In.mkIn (Some n) (Iterator.Array xs cur :: rest) doc)
        = Err NonObjectSearch (In.mkIn None (Iterator.Array xs cur :: rest) doc))
  /\ In.startNode (In.mkIn (Some n) (Iterator.Array xs cur :: rest) doc)
     = Err NonObjectSearch (In.mkIn None (Iterator.Array xs cur :: rest) doc).
Proof.
  assert (Hs : In.search (In.mkIn (Some n) (Iterator.Array xs cur :: rest) doc)
    = Err NonObjectSearch (In.mkIn None (Iterator.Array xs cur :: rest) doc)) by reflexivity.
  split; [exact Hs|]. split.
  - intros A g. rewrite load_with_split, Hs. reflexivity.
  - unfold In.startNode, bind at 1. rewrite Hs. reflexivity.
Qed.

(** ** Narrow integer loads *)

(** C10: a stored [-1] read into a 32-bit unsigned target is rejected with
    a type error by the 64-bit unsigned getter, not reduced modulo [2^32]. *)
Example narrow_negative_unsigned_cex :
  In.loadValue_small_unsigned 32
    (In.mkIn None [Iterator.Array [JInt64 (-1)] 0] (JArray [JInt64 (-1)]))
  = Err IncorrectType (In.mkIn None [Iterator.Array [JInt64 (-1)] 0] (JArray [JInt64 (-1)])).
Proof. reflexivity. Qed.

(** C10 (amended): for a width [0 < w < 64] and an integer [z] the parser
    accepts, the unsigned narrow load goes through the 64-bit unsigned
    getter, which rejects a negative [z] with a type error, and otherwise
    returns [z mod 2^w] with no range check; the signed narrow load rejects
    [z] above [2^63 - 1] and otherwise returns [z] wrapped into
    [[-2^(w-1), 2^(w-1))], which is congruent to [z] modulo [2^w]. *)
Theorem narrowing_loads (w z : Z) (e : element) it rest doc :
  0 < w < 64 -> parse_int z = Some e -> Iterator.value it = inl e ->
  In.loadValue_small_unsigned w (In.mkIn None (it :: rest) doc)
  = (if 0 <=? z then Ok (z mod 2 ^ w) (In.mkIn None (Iterator.incr it :: rest) doc)
     else Err IncorrectType (In.mkIn None (it :: rest) doc))
  /\ In.loadValue_small_signed w (In.mkIn None (it :: rest) doc)
  = (if z <=? int64_max
     then Ok (In.wrap_signed w z) (In.mkIn None (Iterator.incr it :: rest) doc)
     else Err IncorrectType (In.mkIn None (it :: rest) doc))
  /\ - 2 ^ (w - 1) <= In.wrap_signed w z < 2 ^ (w - 1)
  /\ (In.wrap_signed w z - z) mod 2 ^ w = 0.
Proof.
  intros Hw Hp Hv.
  assert (Hget : get_uint64 e = (if 0 <=? z then Some z else None) /\
                 get_int64 e = (if z <=? int64_max then Some z else None)).
  { unfold parse_int in Hp.
    destruct ((int64_min <=? z) && (z <=? int64_max)) eqn:H1.
    - inversion Hp; subst. simpl. rewrite andb_true_iff in H1. destruct H1 as [_ ->].
      split; reflexivity.
    - destruct ((0 <=? z) && (z <=? uint64_max)) eqn:H2; [|discriminate].
      inversion Hp; subst. rewrite andb_true_iff in H2. destruct H2 as [-> _].
      simpl. split; reflexivity. }
  destruct Hget as [Hu Hs].
  assert (Hpos : 0 < 2 ^ (w - 1)) by (apply Z.pow_pos_nonneg; lia).
  assert (Hpw : 2 ^ w = 2 * 2 ^ (w - 1)).
  { replace w with (Z.succ (w - 1)) at 1 by lia. rewrite Z.pow_succ_r by lia. reflexivity. }
  split; [|split; [|split]].
  - unfold In.loadValue_small_unsigned, In.back_value, In.incr_back, bind, In.get, In.put,
      ret, throw, In.set_stack.
    rewrite search_none by reflexivity. cbn - [Z.pow Z.modulo]. rewrite Hv, Hu.
    destruct (0 <=? z); reflexivity.
  - unfold In.loadValue_small_signed, In.back_value, In.incr_back, bind, In.get, In.put,
      ret, throw, In.set_stack.
    rewrite search_none by reflexivity. cbn - [Z.pow Z.modulo In.wrap_signed]. rewrite Hv, Hs.
    destruct (z <=? int64_max); reflexivity.
  - unfold In.wrap_signed. rewrite Hpw.
    pose proof (Z.mod_pos_bound (z + 2 ^ (w - 1)) (2 * 2 ^ (w - 1)) ltac:(lia)). lia.
  - unfold In.wrap_signed.
    rewrite (Z.mod_eq (z + 2 ^ (w - 1)) (2 ^ w)) by lia.
    replace (z + 2 ^ (w - 1) - 2 ^ w * ((z + 2 ^ (w - 1)) / 2 ^ w) - 2 ^ (w - 1) - z)
      with ((-((z + 2 ^ (w - 1)) / 2 ^ w)) * 2 ^ w) by ring.
    apply Z.mod_mul. lia.
Qed.

Lemma narrowing_loads_witness :
  In.loadValue_small_unsigned 8 (In.mkIn None [Iterator.Array [JInt64 300] 0] JNull)
  = Ok 44 (In.mkIn None [Iterator.Array [JInt64 300] 1] JNull).
Proof.
  destruct (narrowing_loads 8 300 (JInt64 300) (Iterator.Array [JInt64 300] 0) [] JNull
              ltac:(lia) eq_refl eq_refl) as [H _].
  rewrite H. reflexivity.
Defined.

(** ** Keys, pending names and the destructor on the write side *)

(** C5: after a node is opened with no pending name, three unnamed scalar
    writes and the closing call emit the object with the keys ["value0"],
    ["value1"], ["value2"] in that order; the new node starts its counter at
    0; and in general an unnamed write at an object level (fresh or already
    opened) with counter [c] emits the key ["value"] followed by [c] and
    increments the counter. *)
Theorem unnamed_keys (a a1 : JSONOutputArchive) (v1 v2 v3 : scalar) :
  startNode a = Some a1 -> itsNextName a1 = None ->
  hd_error (itsNameCounter a1) = Some 0 /\ hd_error (itsNodeStack a1) = Some StartObject /\
  run_out [save v1; save v2; save v3; finishNode] a1 =
    Some (mkOut (itsWriter a1 ++ [TStartObject; TString "value0"; scalar_token v1;
                                  TString "value1"; scalar_token v2;
                                  TString "value2"; scalar_token v3; TEndObject])
                None (tl (itsNameCounter a1)) (tl (itsNodeStack a1))) /\
  (forall b nt c cs ns, itsNodeStack b = nt :: ns ->
     (nt = StartObject \/ nt = InObject) -> itsNameCounter b = c :: cs ->
     itsNextName b = None ->
     writeName b = Some (mkOut (itsWriter b ++ (if NodeType_eqb nt StartObject
                                               then [TStartObject] else [])
                                 ++ [TString ("value" ++ to_string c)])
                               None ((c + 1) mod 2 ^ 32 :: cs) (InObject :: ns))).
Proof.
  intros Hs Hn.
  unfold startNode in Hs. destruct (writeName a) as [a'|]; [|discriminate].
  inversion Hs; subst a1; clear Hs. simpl in Hn |- *.
  split; [reflexivity|]. split; [reflexivity|]. split.
  - unfold run_out, save, writeName, saveValue, emit, finishNode; simpl. rewrite Hn.
    simpl. rewrite <- !app_assoc. reflexivity.
  - intros b nt c cs ns Hb Hnt Hc Hbn. unfold writeName. rewrite Hb, Hc, Hbn.
    destruct Hnt as [->| ->]; reflexivity.
Qed.

Lemma unnamed_keys_witness : exists a1,
  startNode out_init = Some a1 /\ itsNextName a1 = None /\
  run_out [save (VInt 1); save (VInt 2); save (VInt 3); finishNode] a1 =
    Some (mkOut (itsWriter a1 ++ [TStartObject; TString "value0"; TInt 1;
                                  TString "value1"; TInt 2;
                                  TString "value2"; TInt 3; TEndObject])
                None (tl (itsNameCounter a1)) (tl (itsNodeStack a1))).
Proof.
  eexists. split; [reflexivity|]. split; [reflexivity|].
  apply (unnamed_keys out_init); reflexivity.
Defined.

(** C8 (fails): a name set just before a write at an array level is not
    consumed: [writeName] returns before clearing it, so the slot still holds
    it after the write, and after the array is closed the next write at the
    enclosing object level uses it as its key. *)
Example pending_name_leaks :
  run_out [startNode; makeArray; set_name (Some "x"%string); save (VInt 1)] out_init
  = Some (mkOut [TStartObject; TString "value0"; TStartArray; TInt 1]
                (Some "x"%string) [0; 1] [InArray; InObject])
  /\ run_out [startNode; makeArray; set_name (Some "x"%string); save (VInt 1);
              finishNode; save (VInt 2)] out_init
  = Some (mkOut [TStartObject; TString "value0"; TStartArray; TInt 1; TEndArray;
                 TString "x"; TInt 2] None [1] [InObject]).
Proof. split; reflexivity. Qed.

Lemma depth_app ts ts' : depth (ts ++ ts') = depth ts + depth ts'.
Proof.
  induction ts as [|t ts IH]; simpl; [reflexivity|]. unfold depth in *; simpl. rewrite IH. lia.
Qed.

Lemma count_opened_cons nt ns : count_opened (nt :: ns) = opened nt + count_opened ns.
Proof. reflexivity. Qed.

Lemma depth_cons_nil t : depth [t] = delta t.
Proof. unfold depth; simpl. lia. Qed.

Lemma writeName_inv a a' : out_inv a -> writeName a = Some a' ->
  out_inv a' /\ hd_error (itsNodeStack a') <> Some StartObject /\
  hd_error (itsNodeStack a') <> Some StartArray /\ tl (itsNodeStack a') = tl (itsNodeStack a).
Proof.
  intros (Hl & Hne & Hf & Hd) H. unfold writeName in H.
  destruct (itsNodeStack a) as [|nt ns] eqn:Ens; [congruence|].
  destruct (itsNameCounter a) as [|c cs] eqn:Ecs; [discriminate|].
  simpl in Hl, Hf. rewrite count_opened_cons in Hd.
  destruct nt; simpl in H;
    [destruct (itsNextName a) | destruct (itsNextName a) | | ];
    inversion H; subst; clear H;
    (split; [unfold out_inv; cbn [itsNodeStack itsNameCounter itsWriter tl List.length];
             repeat split; try congruence; try assumption;
             rewrite ?depth_app, ?depth_cons_nil, Hd, ?count_opened_cons;
             cbn [delta opened depth fold_right]; lia
            | simpl; repeat split; congruence]).
Qed.

Lemma emit_scalar_inv a v : out_inv a -> out_inv (saveValue v a).
Proof.
  intros (Hl & Hne & Hf & Hd). unfold out_inv, saveValue, emit; simpl.
  repeat split; try assumption. rewrite depth_app, Hd, depth_cons_nil.
  destruct v; cbn [scalar_token delta]; lia.
Qed.

Lemma step_inv a a' : out_inv a -> step a a' -> out_inv a'.
Proof.
  intros Hi Hs. destruct Hs as [a a' H|a a' Hlen H|a n|a v a' H|a d n a' H|a a' Hhd H].
  - unfold startNode in H. destruct (writeName a) as [a0|] eqn:Hw; [|discriminate].
    inversion H; subst; clear H.
    destruct (writeName_inv a a0 Hi Hw) as ((Hl & Hne & Hf & Hd) & Hn1 & Hn2 & Htl).
    unfold out_inv; cbn [itsNodeStack itsNameCounter itsWriter tl List.length].
    repeat split; [congruence|congruence| |].
    + destruct (itsNodeStack a0) as [|nt ns]; [congruence|].
      simpl in Hn1, Hn2, Hf |- *. constructor; [|exact Hf].
      destruct nt; congruence || reflexivity.
    + rewrite Hd, count_opened_cons. cbn [opened]. lia.
  - destruct Hi as (Hl & Hne & Hf & Hd). unfold finishNode in H.
    destruct (itsNodeStack a) as [|nt [|nt2 ns]] eqn:Ens; simpl in Hlen; try lia.
    destruct (itsNameCounter a) as [|c cs] eqn:Ecs; [discriminate|].
    inversion H; subst; clear H. simpl in Hl, Hf.
    inversion Hf as [|? ? H2 Hf']; subst.
    unfold out_inv; cbn [itsNodeStack itsNameCounter itsWriter tl List.length].
    repeat split; [congruence|congruence|exact Hf'|].
    rewrite depth_app, Hd, !count_opened_cons.
    destruct nt; cbn [finish_tokens depth fold_right delta opened]; lia.
  - destruct Hi as (Hl & Hne & Hf & Hd). unfold out_inv, setNextName; simpl. auto.
  - unfold save in H. destruct (writeName a) as [a0|] eqn:Hw; [|discriminate].
    inversion H; subst. apply emit_scalar_inv.
    exact (proj1 (writeName_inv a a0 Hi Hw)).
  - unfold saveBinaryValue in H. destruct (writeName (setNextName n a)) as [a0|] eqn:Hw;
      [|discriminate].
    inversion H; subst. apply emit_scalar_inv.
    assert (Hi' : out_inv (setNextName n a)).
    { destruct Hi as (Hl & Hne & Hf & Hd). unfold out_inv, setNextName; simpl. auto. }
    exact (proj1 (writeName_inv _ a0 Hi' Hw)).
  - destruct Hi as (Hl & Hne & Hf & Hd). unfold makeArray in H.
    destruct (itsNodeStack a) as [|nt ns] eqn:Ens; [discriminate|].
    simpl in Hhd. inversion Hhd; subst nt. inversion H; subst; clear H.
    unfold out_inv; simpl. repeat split; try congruence; try assumption.
    all: rewrite Hd, !count_opened_cons; reflexivity.
Qed.

Lemma reachable_inv a : reachable a -> out_inv a.
Proof.
  induction 1 as [|a a' _ IH Hs].
  - unfold out_inv; simpl. repeat split; [congruence|constructor].
  - exact (step_inv a a' IH Hs).
Qed.

Lemma count_all_opened ns : Forall (fun nt => opened nt = 1) ns ->
  count_opened ns = Z.of_nat (List.length ns).
Proof.
  induction 1 as [|nt ns H _ IH]; [reflexivity|].
  rewrite count_opened_cons, H, IH. simpl List.length. lia.
Qed.

(** C4 (amended): for every archive reached from a fresh one through the
    framework's calls, with [k] nodes on its stack, the destructor's output
    leaves exactly [k - 1] compounds unclosed: it closes the top compound
    only, so the output is balanced only when the root alone is open. *)
Theorem destructor_closes_top_only a ts :
  reachable a -> destroy a = Some ts ->
  depth ts = Z.of_nat (List.length (itsNodeStack a)) - 1.
Proof.
  intros Hr Hd. destruct (reachable_inv a Hr) as (_ & Hne & Hf & Hdep).
  unfold destroy in Hd.
  destruct (itsNodeStack a) as [|nt ns]; [congruence|].
  simpl in Hf. rewrite count_opened_cons, (count_all_opened ns Hf) in Hdep.
  simpl List.length.
  destruct nt; inversion Hd; subst;
    rewrite ?depth_app, ?depth_cons_nil, Hdep; cbn [opened delta]; lia.
Qed.

Lemma destructor_closes_top_only_witness :
  depth [TStartObject; TString "value0"; TStartObject; TString "value0"; TInt 1; TEndObject]
  = Z.of_nat 2 - 1.
Proof.
  refine (destructor_closes_top_only
            (mkOut [TStartObject; TString "value0"; TStartObject; TString "value0"; TInt 1]
                   None [1; 1] [InObject; InObject]) _ _ _).
  - apply (reachable_step
             (mkOut [TStartObject; TString "value0"] None [0; 1] [StartObject; InObject])).
    + apply (reachable_step out_init); [exact reachable_init|].
      apply step_startNode. reflexivity.
    + apply (step_save _ (VInt 1)). reflexivity.
  - reflexivity.
Defined.

(** C4: after one node is opened and a scalar written into it, the
    destructor's output leaves one object unclosed and does not parse. *)
Example destructor_cex :
  run_out [startNode; save (VInt 1)] out_init
  = Some (mkOut [TStartObject; TString "value0"; TStartObject; TString "value0"; TInt 1]
                None [1; 1] [InObject; InObject])
  /\ destroy (mkOut [TStartObject; TString "value0"; TStartObject; TString "value0"; TInt 1]
                    None [1; 1] [InObject; InObject])
     = Some [TStartObject; TString "value0"; TStartObject; TString "value0"; TInt 1; TEndObject]
  /\ depth [TStartObject; TString "value0"; TStartObject; TString "value0"; TInt 1; TEndObject] = 1
  /\ parse [TStartObject; TString "value0"; TStartObject; TString "value0"; TInt 1; TEndObject] = None.
Proof. repeat split; reflexivity. Qed.

(** ** Empty nodes *)

(** C6: opening a node and closing it at once writes [{}], or [[]] after
    [makeArray]; opening an empty object or array on the read side and asking
    its size gives 0; and the document a fresh archive writes for one empty
    node parses, and reading it back opens the node and reports size 0. *)
Theorem empty_compound (a a1 : JSONOutputArchive) :
  startNode a = Some a1 ->
  (exists a2, finishNode a1 = Some a2 /\ itsWriter a2 = itsWriter a1 ++ [TStartObject; TEndObject])
  /\ (exists a1' a2, makeArray a1 = Some a1' /\ finishNode a1' = Some a2 /\
        itsWriter a2 = itsWriter a1 ++ [TStartArray; TEndArray])
  /\ (forall s it rest e, In.itsIteratorStack s = it :: rest -> Iterator.value it = inl e ->
        (e = JObject [] \/ e = JArray []) -> In.itsNextName s = None ->
        exists s', In.startNode s = Ok tt s' /\ In.loadSize s' = Ok 0%nat s')
  /\ (forall n arr, exists ts doc s0 s1,
        empty_node_tokens n arr = Some ts /\ parse ts = Some doc /\
        In.init doc = Ok tt s0 /\ read_empty_node n s0 = Ok 0%nat s1).
Proof.
  intros Hs. unfold startNode in Hs.
  destruct (writeName a) as [a0|]; [|discriminate]. inversion Hs; subst; clear Hs.
  split; [eexists; split; reflexivity|].
  split; [do 2 eexists; repeat split; reflexivity|].
  split.
  - intros s it rest e Hst Hv He Hn.
    destruct s as [nn st doc]; simpl in Hst, Hn; subst.
    unfold In.startNode, bind at 1. rewrite search_none by reflexivity.
    unfold In.back_value, bind, In.get, In.put, ret, throw, In.set_stack. simpl.
    rewrite Hv.
    destruct He as [-> | ->]; eexists; (split; [reflexivity|]);
      unfold In.loadSize, bind, In.get, ret, throw; simpl; rewrite Hv; reflexivity.
  - intros n arr.
    destruct n as [k|], arr; do 4 eexists;
      (split; [reflexivity|]); (split; [reflexivity|]); (split; [reflexivity|]);
      cbv - [String.eqb]; rewrite ?String.eqb_refl; reflexivity.
Qed.

Lemma empty_compound_witness :
  exists a1, startNode out_init = Some a1 /\
    exists a2, finishNode a1 = Some a2 /\
      itsWriter a2 = itsWriter a1 ++ [TStartObject; TEndObject].
Proof.
  exact (ex_intro _ _ (conj eq_refl (proj1 (empty_compound out_init _ eq_refl)))).
Defined.

(** ** Binary values *)

Lemma skipn_all_length {A} (l l' : list A) : List.length l' = List.length l -> skipn (List.length l) l' = [].
Proof. intros H. rewrite <- H. apply skipn_all. Qed.

(** C7: for every byte buffer [data] and destination buffer of the declared
    [size], the document a fresh archive writes for [data] parses, and
    loading it with [size] copies exactly [data] into the destination when
    [size] is the length of [data]; otherwise the load fails with the
    size-mismatch error and leaves the destination unchanged. *)
Theorem binary_roundtrip (data dst : list byte) (name : option string) (size : nat) :
  List.length dst = size ->
  exists ts doc s0,
    binary_doc_tokens data name = Some ts /\ parse ts = Some doc /\
    In.init doc = Ok tt s0 /\
    match loadBinaryValue size name (s0, dst) with
    | Ok _ (_, buf) => size = List.length data /\ buf = data
    | Err e (_, buf) => size <> List.length data /\ e = SizeMismatch /\ buf = dst
    end.
Proof.
  intros Hdst.
  set (key := match name with Some n => n | None => "value0"%string end).
  set (enc := Base64.encode data).
  exists [TStartObject; TString key; TString enc; TEndObject],
         (JObject [(key, JString enc)]),
         (In.mkIn None [Iterator.Object [(key, JString enc)] 0] (JObject [(key, JString enc)])).
  split; [destruct name; reflexivity|].
  split; [reflexivity|].
  split; [reflexivity|].
  assert (Hload : In.loadValue_string
            (In.set_next name (In.mkIn None [Iterator.Object [(key, JString enc)] 0]
                                  (JObject [(key, JString enc)])))
          = Ok enc (In.mkIn None [Iterator.Object [(key, JString enc)] 1]
                                  (JObject [(key, JString enc)]))).
  { destruct name as [n|]; unfold key; cbv - [enc].
    - rewrite String.eqb_refl. reflexivity.
    - reflexivity. }
  unfold loadBinaryValue. rewrite Hload.
  unfold enc. rewrite B64.decode_encode.
  destruct (Nat.eqb_spec size (List.length data)) as [E|E]; simpl.
  - split; [exact E|]. rewrite skipn_all_length by congruence. apply app_nil_r.
  - auto.
Qed.

Lemma binary_roundtrip_witness :
  exists ts doc s0,
    binary_doc_tokens [Byte.x01; Byte.x02] None = Some ts /\ parse ts = Some doc /\
    In.init doc = Ok tt s0 /\
    match loadBinaryValue 2 None (s0, [Byte.x00; Byte.x00]) with
    | Ok _ (_, buf) => 2%nat = List.length [Byte.x01; Byte.x02] /\ buf = [Byte.x01; Byte.x02]
    | Err e (_, buf) => 2%nat <> List.length [Byte.x01; Byte.x02] /\ e = SizeMismatch /\
                        buf = [Byte.x00; Byte.x00]
    end.
Proof.
  apply (binary_roundtrip [Byte.x01; Byte.x02] [Byte.x00; Byte.x00] None 2). reflexivity.
Defined.

(* ================================================================== *)
(** ** Further properties of the archives *)

Lemma scan_first n kvs : forall i k e,
  nth_error kvs i = Some (n, e) ->
  (forall j k' e', (j < i)%nat -> nth_error kvs j = Some (k', e') -> k' <> n) ->
  Iterator.scan n kvs k = (k + i, true)%nat.
Proof.
  induction kvs as [|[k0 e0] kvs IH]; intros i k e Hi Hb; [destruct i; discriminate|].
  simpl. destruct i as [|i].
  - simpl in Hi. inversion Hi; subst. rewrite String.eqb_refl. f_equal. lia.
  - destruct (String.eqb_spec k0 n) as [E|E].
    + exfalso. apply (Hb 0%nat k0 e0); [lia|reflexivity|exact E].
    + rewrite (IH i (S k) e Hi). f_equal. lia.
      intros j k' e' Hj Hn. apply (Hb (S j) k' e'); [lia|exact Hn].
Qed.

(** Extra X1.  A named load finds its member by key: when the current
    member already has the key, [search] leaves the cursor where it is;
    otherwise it moves the cursor to the first member with that key, and
    [getNodeName] then reports that key.  The pending name is cleared. *)
Theorem named_lookup_position n kvs cur rest doc :
  (forall e, nth_error kvs cur = Some (n, e) ->
     In.search (In.mkIn (Some n) (Iterator.Object kvs cur :: rest) doc)
     = Ok tt (In.mkIn None (Iterator.Object kvs cur :: rest) doc)) /\
  (forall i e, Iterator.name (Iterator.Object kvs cur) <> Some n ->
     nth_error kvs i = Some (n, e) ->
     (forall j k e', (j < i)%nat -> nth_error kvs j = Some (k, e') -> k <> n) ->
     In.search (In.mkIn (Some n) (Iterator.Object kvs cur :: rest) doc)
     = Ok tt (In.mkIn None (Iterator.Object kvs i :: rest) doc) /\
     In.getNodeName (In.mkIn None (Iterator.Object kvs i :: rest) doc)
     = Ok (Some n) (In.mkIn None (Iterator.Object kvs i :: rest) doc)).
Proof.
  split.
  - intros e He. unfold In.search, bind, In.get, In.put, In.set_next; simpl.
    rewrite He, String.eqb_refl. reflexivity.
  - intros i e Hname Hi Hb.
    assert (Hs : Iterator.scan n kvs 0 = (i, true)) by exact (scan_first n kvs i 0 e Hi Hb).
    split.
    + unfold In.search, bind, In.get, In.put, ret, In.set_next, In.set_stack; simpl.
      simpl in Hname.
      destruct (nth_error kvs cur) as [[k ek]|] eqn:Hc.
      * destruct (String.eqb_spec n k) as [->|Hne]; [congruence|].
        rewrite Hs. reflexivity.
      * rewrite Hs. reflexivity.
    + unfold In.getNodeName, bind, In.get, ret; simpl. rewrite Hi. reflexivity.
Qed.

Lemma named_lookup_position_witness :
  let kvs := [("a"%string, JInt64 1); ("b"%string, JInt64 2); ("b"%string, JInt64 3)] in
  In.search (In.mkIn (Some "b"%string) [Iterator.Object kvs 2] JNull)
  = Ok tt (In.mkIn None [Iterator.Object kvs 2] JNull) /\
  In.search (In.mkIn (Some "b"%string) [Iterator.Object kvs 0] JNull)
  = Ok tt (In.mkIn None [Iterator.Object kvs 1] JNull).
Proof.
  intros kvs. split.
  - exact (proj1 (named_lookup_position "b" kvs 2 [] JNull) (JInt64 3) eq_refl).
  - refine (proj1 (proj2 (named_lookup_position "b" kvs 0 [] JNull) 1%nat (JInt64 2) _ eq_refl _)).
    + simpl. congruence.
    + intros j k e' Hj Hn. destruct j as [|j]; [|lia]. simpl in Hn.
      inversion Hn. discriminate.
Defined.

(** Extra X2.  Opening a node and closing it at once ([startNode]
    then [finishNode]) is the same as skipping the value: search, check
    that it is an object or array (else [NotCompound]), advance the cursor. *)
Theorem open_close_skips s :
  (In.startNode ;; In.finishNode) s =
  (In.search ;; v <- In.back_value ;;
   match In.compound_size v with Some _ => In.incr_back | None => throw NotCompound end) s.
Proof.
  unfold In.startNode, In.finishNode, In.back_value, In.incr_back, bind, In.get, In.put,
    ret, throw, In.set_stack.
  destruct (In.search s) as [[] s1|e s1]; [|reflexivity].
  destruct s1 as [nn st doc]; simpl.
  destruct st as [|it rest]; [reflexivity|].
  destruct (Iterator.value it) as [v|err]; [|reflexivity].
  destruct v; reflexivity.
Qed.

(** Extra X3.  After [startNode] opens a nested object or array of [n]
    members, [loadSize] reports [n] (read from the parent's current value)
    and the iterator stack has grown by one. *)
Theorem size_of_open_node it rest doc e n :
  Iterator.value it = inl e -> In.compound_size e = Some n ->
  exists s', In.startNode (In.mkIn None (it :: rest) doc) = Ok tt s' /\
    In.loadSize s' = Ok n s' /\ List.length (In.itsIteratorStack s') = S (S (List.length rest)).
Proof.
  intros Hv Hn.
  unfold In.startNode, bind at 1. rewrite search_none by reflexivity.
  unfold In.back_value, bind, In.get, In.put, ret, throw, In.set_stack; simpl.
  rewrite Hv.
  destruct e; simpl in Hn; try discriminate; inversion Hn; subst;
    eexists; (split; [reflexivity|]); split; try reflexivity;
    unfold In.loadSize, bind, In.get, ret, throw; simpl; rewrite Hv; reflexivity.
Qed.

Lemma size_of_open_node_witness :
  exists s', In.startNode (In.mkIn None [Iterator.Array [JArray [JInt64 1; JInt64 2]] 0] JNull)
    = Ok tt s' /\ In.loadSize s' = Ok 2%nat s' /\ List.length (In.itsIteratorStack s') = 2%nat.
Proof.
  apply (size_of_open_node (Iterator.Array [JArray [JInt64 1; JInt64 2]] 0) [] JNull
           (JArray [JInt64 1; JInt64 2]) 2); reflexivity.
Defined.

(** Extra X4.  Construction of the input archive: a root that is not an
    object or array is refused ([RootNotCompound]); otherwise [loadSize]
    reports the root's size; an empty root gives a [Null_] iterator, on
    which every load and [startNode] fails with [NullIterator]. *)
Theorem init_edges doc :
  (In.compound_size doc = None -> In.init doc = Err RootNotCompound (In.mkIn None [] doc)) /\
  (forall n, In.compound_size doc = Some n ->
     exists s0, In.init doc = Ok tt s0 /\ In.loadSize s0 = Ok n s0) /\
  (In.compound_size doc = Some 0%nat ->
     exists s0, In.init doc = Ok tt s0 /\
       In.itsIteratorStack s0 = [Iterator.Null_] /\
       In.startNode s0 = Err NullIterator s0 /\
       (forall A (g : element -> option A), In.load_with g s0 = Err NullIterator s0)).
Proof.
  split; [|split].
  - destruct doc; simpl; intros H; try discriminate; reflexivity.
  - intros n H. destruct doc; simpl in H; try discriminate; inversion H; subst;
      eexists; split; reflexivity.
  - intros H. destruct doc as [| | | | |xs|kvs]; simpl in H; try discriminate;
      [destruct xs; [|discriminate] | destruct kvs; [|discriminate]];
      eexists; split; try reflexivity; split; try reflexivity; split; reflexivity.
Qed.

Lemma init_edges_witness :
  In.init (JInt64 5) = Err RootNotCompound (In.mkIn None [] (JInt64 5)) /\
  (exists s0, In.init (JObject [("a"%string, JNull)]) = Ok tt s0 /\ In.loadSize s0 = Ok 1%nat s0) /\
  (exists s0, In.init (JArray []) = Ok tt s0 /\
     In.itsIteratorStack s0 = [Iterator.Null_] /\
     In.startNode s0 = Err NullIterator s0 /\
     (forall A (g : element -> option A), In.load_with g s0 = Err NullIterator s0)).
Proof.
  split; [|split].
  - exact (proj1 (init_edges (JInt64 5)) eq_refl).
  - exact (proj1 (proj2 (init_edges (JObject [("a"%string, JNull)]))) 1%nat eq_refl).
  - exact (proj2 (proj2 (init_edges (JArray []))) eq_refl).
Defined.

Lemma load_at_array {A} (g : element -> option A) xs i e rest doc :
  nth_error xs i = Some e ->
  In.load_with g (In.mkIn None (Iterator.Array xs i :: rest) doc) =
  match g e with
  | Some x => Ok x (In.mkIn None (Iterator.Array xs (S i) :: rest) doc)
  | None => Err IncorrectType (In.mkIn None (Iterator.Array xs i :: rest) doc)
  end.
Proof.
  intros Hi.
  assert (Hlt : (i < List.length xs)%nat) by (apply nth_error_Some; congruence).
  unfold In.load_with, In.search, In.back_value, In.incr_back, bind, In.get, In.put,
    ret, throw, In.set_next, In.set_stack; simpl.
  rewrite Hi. destruct (g e); [|reflexivity].
  cbn - [Nat.ltb]. rewrite (proj2 (Nat.ltb_lt _ _) Hlt). reflexivity.
Qed.

Lemma load_past_end {A} (g : element -> option A) xs rest doc :
  In.load_with g (In.mkIn None (Iterator.Array xs (List.length xs) :: rest) doc)
  = Err NoMoreObjects (In.mkIn None (Iterator.Array xs (List.length xs) :: rest) doc).
Proof.
  unfold In.load_with, In.search, In.back_value, bind, In.get, In.put, ret, throw,
    In.set_next; simpl.
  rewrite (proj2 (nth_error_None xs (List.length xs)) (le_n _)). reflexivity.
Qed.

(** Extra X5.  Unnamed loads from an array read its elements in order:
    [length xs] loads return all of them and leave the cursor at the end,
    and one more load fails with [NoMoreObjects] without changing the
    archive. *)
Theorem array_reads_in_order {A} (g : element -> option A) xs vs rest doc :
  map g xs = map Some vs ->
  load_n g (List.length xs) (In.mkIn None (Iterator.Array xs 0 :: rest) doc)
  = Ok vs (In.mkIn None (Iterator.Array xs (List.length xs) :: rest) doc) /\
  In.load_with g (In.mkIn None (Iterator.Array xs (List.length xs) :: rest) doc)
  = Err NoMoreObjects (In.mkIn None (Iterator.Array xs (List.length xs) :: rest) doc).
Proof.
  intros Hm. split; [|apply load_past_end].
  assert (G : forall pre ys ws, map g ys = map Some ws ->
    load_n g (List.length ys) (In.mkIn None (Iterator.Array (pre ++ ys) (List.length pre) :: rest) doc)
    = Ok ws (In.mkIn None (Iterator.Array (pre ++ ys) (List.length (pre ++ ys)) :: rest) doc)).
  { intros pre ys. revert pre. induction ys as [|y ys IH]; intros pre ws H.
    - destruct ws; [|discriminate]. simpl. rewrite app_nil_r. reflexivity.
    - destruct ws as [|w ws]; [discriminate|]. simpl in H. inversion H as [[Hy Hys]].
      simpl. unfold bind at 1.
      rewrite (load_at_array g (pre ++ y :: ys) (List.length pre) y rest doc)
        by (rewrite nth_error_app2, Nat.sub_diag by lia; reflexivity).
      rewrite Hy. unfold bind.
      replace (S (List.length pre)) with (List.length (pre ++ [y]))
        by (rewrite length_app; simpl; lia).
      replace (pre ++ y :: ys) with ((pre ++ [y]) ++ ys) by (rewrite <- app_assoc; reflexivity).
      rewrite (IH (pre ++ [y]) ws Hys). reflexivity. }
  exact (G [] xs vs Hm).
Qed.

Lemma array_reads_in_order_witness :
  load_n get_int64 2 (In.mkIn None [Iterator.Array [JInt64 1; JInt64 (-2)] 0] JNull)
  = Ok [1; -2] (In.mkIn None [Iterator.Array [JInt64 1; JInt64 (-2)] 2] JNull) /\
  In.load_with get_int64 (In.mkIn None [Iterator.Array [JInt64 1; JInt64 (-2)] 2] JNull)
  = Err NoMoreObjects (In.mkIn None [Iterator.Array [JInt64 1; JInt64 (-2)] 2] JNull).
Proof.
  apply (array_reads_in_order get_int64 [JInt64 1; JInt64 (-2)] [1; -2] [] JNull).
  reflexivity.
Defined.

Lemma preserves_bind {A B} (m : M In.JSONInputArchive A) (k : A -> M In.JSONInputArchive B) :
  preserves m -> (forall x, preserves (k x)) -> preserves (bind m k).
Proof.
  intros Hm Hk s Hs. unfold bind. specialize (Hm s Hs).
  destruct (m s) as [x s1|e s1]; simpl in *; [apply Hk|]; exact Hm.
Qed.

Lemma preserves_ret {A} (x : A) : preserves (ret x).
Proof. intros s Hs. exact Hs. Qed.

Lemma preserves_throw {A} e : preserves (@throw _ A e).
Proof. intros s Hs. exact Hs. Qed.

Lemma scan_le n kvs i : (fst (Iterator.scan n kvs i) <= i + List.length kvs)%nat.
Proof.
  revert i. induction kvs as [|[k e] kvs IH]; intros i; simpl; [lia|].
  destruct (String.eqb k n); simpl; [lia|]. specialize (IH (S i)). lia.
Qed.

Lemma incr_bounded it : it_bounded it = true -> it_bounded (Iterator.incr it) = true.
Proof.
  destruct it as [kvs c|xs c|]; cbn [Iterator.incr]; intros H; [| |reflexivity].
  - destruct (Nat.ltb_spec c (List.length kvs)); cbn [it_bounded];
      [apply Nat.leb_le; lia|exact H].
  - destruct (Nat.ltb_spec c (List.length xs)); cbn [it_bounded];
      [apply Nat.leb_le; lia|exact H].
Qed.

Lemma search_it_bounded n it : it_bounded (fst (Iterator.search n it)) = true \/
  fst (Iterator.search n it) = it.
Proof.
  destruct it as [kvs c|xs c|]; simpl; [left|right; reflexivity|right; reflexivity].
  pose proof (scan_le n kvs 0) as H.
  destruct (Iterator.scan n kvs 0) as [pos found]. simpl in *. apply Nat.leb_le. lia.
Qed.

Ltac bounded_unfold :=
  unfold stack_bounded, In.set_stack, In.set_next in *; simpl in *.

Lemma preserves_search : preserves In.search.
Proof.
  intros [nn st doc] Hs.
  unfold In.search, bind, In.get, In.put, ret, throw, In.set_next, In.set_stack; simpl.
  destruct nn as [n|]; [|exact Hs].
  destruct st as [|it rest]; [exact Hs|]. bounded_unfold.
  apply andb_true_iff in Hs as [Hit Hrest].
  assert (G : forall it' r, Iterator.search n it = (it', r) ->
    forallb it_bounded (it' :: rest) = true).
  { intros it' r E. pose proof (search_it_bounded n it) as [H|H]; rewrite E in H; simpl in H;
      simpl; rewrite ?H, Hrest; [reflexivity|subst; rewrite Hit; reflexivity]. }
  destruct (Iterator.name it) as [k|];
    [destruct (String.eqb n k); [simpl; rewrite Hit, Hrest; reflexivity|]|];
    destruct (Iterator.search n it) as [it' [e|]] eqn:E; simpl; exact (G _ _ eq_refl).
Qed.

Lemma preserves_back_value : preserves In.back_value.
Proof.
  intros [nn st doc] Hs. unfold In.back_value, bind, In.get, ret, throw; simpl.
  destruct st as [|it rest]; [exact Hs|].
  destruct (Iterator.value it); exact Hs.
Qed.

Lemma preserves_incr_back : preserves In.incr_back.
Proof.
  intros [nn st doc] Hs. unfold In.incr_back, bind, In.get, In.put, ret, throw; simpl.
  destruct st as [|it rest]; [exact Hs|]. bounded_unfold.
  apply andb_true_iff in Hs as [Hit Hrest]. rewrite incr_bounded, Hrest by exact Hit.
  reflexivity.
Qed.

Lemma preserves_load_with {A} (g : element -> option A) : preserves (In.load_with g).
Proof.
  unfold In.load_with. apply preserves_bind; [exact preserves_search|intros _].
  apply preserves_bind; [exact preserves_back_value|intros e].
  destruct (g e); [|apply preserves_throw].
  apply preserves_bind; [exact preserves_incr_back|intros _]. apply preserves_ret.
Qed.

Lemma of_array_bounded xs : it_bounded (Iterator.of_array xs) = true.
Proof. destruct xs; reflexivity. Qed.

Lemma of_object_bounded kvs : it_bounded (Iterator.of_object kvs) = true.
Proof. destruct kvs; reflexivity. Qed.

(** Extra X6.  No input-archive operation moves a cursor past the end of
    its compound, also when it throws: the archive built by [Init] is in
    range and every operation keeps it so.  For an in-range iterator,
    [isValid] holds exactly when [value] yields an element. *)
Theorem cursors_stay_in_range :
  (forall doc, stack_bounded (state_of (In.init doc)) = true) /\
  (forall n, preserves (In.setNextName n)) /\
  preserves In.search /\
  (forall A (g : element -> option A), preserves (In.load_with g)) /\
  (forall w, preserves (In.loadValue_small_signed w)) /\
  (forall w, preserves (In.loadValue_small_unsigned w)) /\
  preserves In.startNode /\ preserves In.finishNode /\ preserves In.loadSize /\
  preserves In.getNodeName /\
  (forall it, it_bounded it = true ->
     (Iterator.isValid it = true <-> exists e, Iterator.value it = inl e)).
Proof.
  split; [|split; [|split; [|split; [|split; [|split; [|split; [|split; [|split; [|split]]]]]]]]].
  - intros []; simpl; try reflexivity; unfold stack_bounded; simpl;
      rewrite ?of_array_bounded, ?of_object_bounded; reflexivity.
  - intros n [nn st doc] Hs. exact Hs.
  - exact preserves_search.
  - intros A g. apply preserves_load_with.
  - intros w. unfold In.loadValue_small_signed.
    apply preserves_bind; [exact preserves_search|intros _].
    apply preserves_bind; [exact preserves_back_value|intros e].
    destruct (get_int64 e); [|apply preserves_throw].
    apply preserves_bind; [exact preserves_incr_back|intros _]. apply preserves_ret.
  - intros w. unfold In.loadValue_small_unsigned.
    apply preserves_bind; [exact preserves_search|intros _].
    apply preserves_bind; [exact preserves_back_value|intros e].
    destruct (get_uint64 e); [|apply preserves_throw].
    apply preserves_bind; [exact preserves_incr_back|intros _]. apply preserves_ret.
  - unfold In.startNode.
    apply preserves_bind; [exact preserves_search|intros _].
    apply preserves_bind; [exact preserves_back_value|intros v].
    intros [nn st doc] Hs. unfold bind, In.get, In.put, throw; simpl.
    destruct v; try exact Hs; bounded_unfold;
      rewrite ?of_array_bounded, ?of_object_bounded; exact Hs.
  - intros [nn st doc] Hs. unfold In.finishNode, bind, In.get, In.put, throw; simpl.
    destruct st as [|it [|parent rest]]; [exact Hs|reflexivity|].
    bounded_unfold. apply andb_true_iff in Hs as [_ Hs].
    apply andb_true_iff in Hs as [Hp Hrest]. rewrite incr_bounded, Hrest by exact Hp.
    reflexivity.
  - intros [nn st doc] Hs. unfold In.loadSize, bind, In.get, ret, throw; simpl.
    destruct st as [|it [|parent rest]]; [exact Hs| |].
    + destruct doc; exact Hs.
    + destruct (Iterator.value parent) as [e|]; [destruct (In.compound_size e)|]; exact Hs.
  - intros [nn st doc] Hs. unfold In.getNodeName, bind, In.get, ret, throw; simpl.
    destruct st; exact Hs.
  - intros [kvs c|xs c|] Hb; simpl in Hb |- *.
    + apply Nat.leb_le in Hb. rewrite negb_true_iff, Nat.eqb_neq. split.
      * intros H. destruct (nth_error kvs c) as [[k e]|] eqn:E; [eauto|].
        apply nth_error_None in E. lia.
      * intros [e He]. destruct (nth_error kvs c) eqn:E; [|discriminate].
        intros ->. rewrite (proj2 (nth_error_None kvs (List.length kvs)) (le_n _)) in E.
        discriminate.
    + apply Nat.leb_le in Hb. rewrite negb_true_iff, Nat.eqb_neq. split.
      * intros H. destruct (nth_error xs c) as [e|] eqn:E; [eauto|].
        apply nth_error_None in E. lia.
      * intros [e He]. destruct (nth_error xs c) eqn:E; [|discriminate].
        intros ->. rewrite (proj2 (nth_error_None xs (List.length xs)) (le_n _)) in E.
        discriminate.
    + split; [discriminate|intros [e He]; discriminate].
Qed.

Lemma cursors_stay_in_range_witness :
  (Iterator.isValid (Iterator.Array [JNull] 0) = true <->
   exists e, Iterator.value (Iterator.Array [JNull] 0) = inl e) /\
  (Iterator.isValid (Iterator.Array [JNull] 1) = true <->
   exists e, Iterator.value (Iterator.Array [JNull] 1) = inl e).
Proof.
  destruct cursors_stay_in_range as (_ & _ & _ & _ & _ & _ & _ & _ & _ & _ & H).
  split; apply H; reflexivity.
Defined.

Lemma run_out_app ops1 ops2 a :
  run_out (ops1 ++ ops2) a =
  match run_out ops1 a with Some a' => run_out ops2 a' | None => None end.
Proof.
  revert a. induction ops1 as [|op ops IH]; intros a; simpl; [reflexivity|].
  destruct (op a); [apply IH|reflexivity].
Qed.

Lemma members_in_object ms : forall w c cs ns,
  0 <= c < 2 ^ 32 ->
  run_out (members_ops ms) (mkOut w None (c :: cs) (InObject :: ns)) =
  Some (mkOut (w ++ keyed c ms) None (((c + count_unnamed ms) mod 2 ^ 32) :: cs)
              (InObject :: ns)).
Proof.
  induction ms as [|[[n|] v] ms IH]; intros w c cs ns Hc.
  - simpl. rewrite app_nil_r. unfold count_unnamed. simpl.
    rewrite Z.add_0_r, Z.mod_small by lia. reflexivity.
  - unfold members_ops. simpl flat_map. cbn [app run_out member_ops set_name].
    unfold save, writeName, setNextName, saveValue, emit. cbn [itsNodeStack itsNameCounter itsNextName itsWriter].
    fold (members_ops ms). rewrite IH by exact Hc.
    unfold count_unnamed. simpl. rewrite <- !app_assoc. reflexivity.
  - unfold members_ops. simpl flat_map. cbn [app run_out member_ops].
    unfold save, writeName, saveValue, emit. cbn [itsNodeStack itsNameCounter itsNextName itsWriter].
    fold (members_ops ms).
    rewrite IH by (apply Z.mod_pos_bound; lia).
    unfold count_unnamed. simpl filter. cbn [List.length]. rewrite Nat2Z.inj_succ.
    f_equal. f_equal.
    + rewrite <- !app_assoc. reflexivity.
    + f_equal. rewrite Zplus_mod_idemp_l. f_equal. lia.
Qed.

(** Extra X7.  Saving members inside an object writes each explicit name as
    the key and numbers the unnamed members "value<counter>" in order, the
    counter advancing modulo 2^32 only on unnamed members; the pending name
    is cleared after each member.  A node opened by [startNode] and
    closed by [finishNode] is written as [{ ... }] with counters restarting
    at 0, and the parent's counter and node stack are restored. *)
Theorem object_member_keys ms :
  (forall w c cs ns, 0 <= c < 2 ^ 32 ->
     run_out (members_ops ms) (mkOut w None (c :: cs) (InObject :: ns)) =
     Some (mkOut (w ++ keyed c ms) None (((c + count_unnamed ms) mod 2 ^ 32) :: cs)
                 (InObject :: ns))) /\
  (forall a a1, startNode a = Some a1 -> itsNextName a1 = None ->
     run_out (members_ops ms ++ [finishNode]) a1 =
     Some (mkOut (itsWriter a1 ++ TStartObject :: keyed 0 ms ++ [TEndObject]) None
                 (tl (itsNameCounter a1)) (tl (itsNodeStack a1)))).
Proof.
  split; [exact (members_in_object ms)|].
  intros a a1 Hs Hn. unfold startNode in Hs.
  destruct (writeName a) as [a0|]; [|discriminate]. inversion Hs; subst a1; clear Hs.
  cbn [itsNextName itsWriter itsNameCounter itsNodeStack tl] in Hn |- *.
  rewrite run_out_app.
  destruct ms as [|[[n|] v] ms].
  - simpl. unfold finishNode; simpl. rewrite Hn. reflexivity.
  - unfold members_ops. simpl flat_map. cbn [app run_out member_ops set_name].
    unfold save at 1, writeName, setNextName, saveValue, emit.
    cbn [itsNodeStack itsNameCounter itsNextName itsWriter].
    fold (members_ops ms). rewrite members_in_object by lia.
    simpl. unfold finishNode; simpl. rewrite <- !app_assoc. reflexivity.
  - unfold members_ops. simpl flat_map. cbn [app run_out member_ops].
    unfold save at 1, writeName, saveValue, emit.
    cbn [itsNodeStack itsNameCounter itsNextName itsWriter]. rewrite Hn.
    cbn [itsNodeStack itsNameCounter itsNextName itsWriter].
    fold (members_ops ms). rewrite members_in_object by (apply Z.mod_pos_bound; lia).
    simpl. unfold finishNode; simpl. rewrite <- !app_assoc. reflexivity.
Qed.

Lemma object_member_keys_witness :
  let ms := [(None, VInt 1); (Some "x"%string, VBool true); (None, VInt 2)] in
  run_out (members_ops ms) (mkOut [] None [2 ^ 32 - 1] [InObject]) =
    Some (mkOut [TString "value4294967295"; TInt 1; TString "x"; TBool true;
                 TString "value0"; TInt 2] None [1] [InObject]) /\
  run_out (members_ops ms ++ [finishNode])
    (mkOut [TStartObject; TString "value0"] None [0; 1] [StartObject; InObject]) =
    Some (mkOut [TStartObject; TString "value0"; TStartObject; TString "value0"; TInt 1;
                 TString "x"; TBool true; TString "value1"; TInt 2; TEndObject]
                None [1] [InObject]).
Proof.
  intros ms. split.
  - rewrite (proj1 (object_member_keys ms) [] (2 ^ 32 - 1) [] []); [reflexivity | lia].
  - rewrite (proj2 (object_member_keys ms) out_init
      (mkOut [TStartObject; TString "value0"] None [0; 1] [StartObject; InObject]));
      reflexivity.
Defined.

Lemma saves_in_array vs : forall w nn c cs ns,
  run_out (map save vs) (mkOut w nn (c :: cs) (InArray :: ns)) =
  Some (mkOut (w ++ map scalar_token vs) nn (c :: cs) (InArray :: ns)).
Proof.
  induction vs as [|v vs IH]; intros w nn c cs ns.
  - simpl; rewrite app_nil_r; reflexivity.
  - cbn [map run_out]. unfold save, writeName, saveValue, emit. cbn [itsNodeStack itsNameCounter itsNextName itsWriter].
    rewrite IH. rewrite app_nil_r, <- app_assoc. reflexivity.
Qed.

(** Extra X8.  Inside an array ([makeArray] after [startNode]) values are
    written without keys, and the name counter and pending name are left
    alone; closing the node writes [[ ... ]] and restores the parent. *)
Theorem array_node_elements vs :
  (forall w nn c cs ns,
     run_out (map save vs) (mkOut w nn (c :: cs) (InArray :: ns)) =
     Some (mkOut (w ++ map scalar_token vs) nn (c :: cs) (InArray :: ns))) /\
  (forall a a1 a2, startNode a = Some a1 -> makeArray a1 = Some a2 ->
     run_out (map save vs ++ [finishNode]) a2 =
     Some (mkOut (itsWriter a1 ++ TStartArray :: map scalar_token vs ++ [TEndArray])
                 (itsNextName a1) (tl (itsNameCounter a1)) (tl (itsNodeStack a1)))).
Proof.
  split; [exact (saves_in_array vs)|].
  intros a a1 a2 Hs Hm. unfold startNode in Hs.
  destruct (writeName a) as [a0|]; [|discriminate]. inversion Hs; subst a1; clear Hs.
  unfold makeArray in Hm. cbn [itsNodeStack] in Hm. inversion Hm; subst a2; clear Hm.
  cbn [itsNextName itsWriter itsNameCounter itsNodeStack tl].
  rewrite run_out_app.
  destruct vs as [|v vs].
  - reflexivity.
  - cbn [map run_out]. unfold save at 1, writeName, saveValue, emit. cbn [itsNodeStack itsNameCounter itsNextName itsWriter].
    rewrite saves_in_array. cbn. rewrite <- !app_assoc. reflexivity.
Qed.

Lemma array_node_elements_witness :
  run_out (map save [VInt 1; VString "a"%string]) (mkOut [] (Some "n"%string) [7] [InArray])
    = Some (mkOut [TInt 1; TString "a"] (Some "n"%string) [7] [InArray]) /\
  run_out (map save [VInt 1; VString "a"%string] ++ [finishNode])
    (mkOut [TStartObject; TString "value0"] None [0; 1] [StartArray; InObject])
    = Some (mkOut [TStartObject; TString "value0"; TStartArray; TInt 1; TString "a"; TEndArray]
                  None [1] [InObject]).
Proof.
  split.
  - exact (proj1 (array_node_elements [VInt 1; VString "a"%string]) [] (Some "n"%string) 7 [] []).
  - exact (proj2 (array_node_elements [VInt 1; VString "a"%string]) out_init
      (mkOut [TStartObject; TString "value0"] None [0; 1] [StartObject; InObject])
      (mkOut [TStartObject; TString "value0"] None [0; 1] [StartArray; InObject])
      eq_refl eq_refl).
Defined.



Lemma parse_int_signed z : int64_min <= z <= int64_max -> parse_int z = Some (JInt64 z).
Proof.
  intros H. unfold parse_int.
  replace ((int64_min <=? z) && (z <=? int64_max)) with true; [reflexivity|].
  symmetry. apply andb_true_iff. split; apply Z.leb_le; lia.
Qed.

Lemma parse_int_unsigned z : int64_max < z <= uint64_max -> parse_int z = Some (JUint64 z).
Proof.
  intros H. unfold parse_int.
  replace ((int64_min <=? z) && (z <=? int64_max)) with false.
  - replace ((0 <=? z) && (z <=? uint64_max)) with true; [reflexivity|].
    symmetry. apply andb_true_iff. unfold int64_max in H. split; apply Z.leb_le; lia.
  - symmetry. apply andb_false_iff. right. apply Z.leb_gt. lia.
Qed.

Lemma parse_member_step n k r :
  parse_value (S (S n)) (TStartObject :: TString k :: r) =
  match parse_value n r with
  | Some (v, r') => parse_members n r' [(k, v)]
  | None => None
  end.
Proof. reflexivity. Qed.

Lemma parse_member k t e : parse_value 8 [t; TEndObject] = Some (e, [TEndObject]) ->
  parse [TStartObject; TString k; t; TEndObject] = Some (JObject [(k, e)]).
Proof.
  intros H. unfold parse.
  change (2 * List.length [TStartObject; TString k; t; TEndObject] + 2)%nat with (S (S 8)).
  rewrite parse_member_step, H. reflexivity.
Qed.

Lemma first_member_state name e doc :
  In.search (In.mkIn name [Iterator.Object [(key_of name, e)] 0] doc)
  = Ok tt (In.mkIn None [Iterator.Object [(key_of name, e)] 0] doc).
Proof.
  destruct name as [n|]; [|reflexivity].
  unfold In.search, bind, In.get, In.put, ret, In.set_next; simpl.
  rewrite String.eqb_refl. reflexivity.
Qed.

Lemma read_first_member {A} (g : element -> option A) name e doc :
  In.load_with g (In.mkIn name [Iterator.Object [(key_of name, e)] 0] doc) =
  match g e with
  | Some x => Ok x (In.mkIn None [Iterator.Object [(key_of name, e)] 1] doc)
  | None => Err IncorrectType (In.mkIn None [Iterator.Object [(key_of name, e)] 0] doc)
  end.
Proof.
  unfold In.load_with, bind at 1. rewrite first_member_state.
  unfold In.back_value, In.incr_back, bind, In.get, In.put, ret, throw, In.set_stack; simpl.
  destruct (g e); reflexivity.
Qed.

Lemma read_first_small_signed w name e doc :
  In.loadValue_small_signed w (In.mkIn name [Iterator.Object [(key_of name, e)] 0] doc) =
  match get_int64 e with
  | Some z => Ok (In.wrap_signed w z) (In.mkIn None [Iterator.Object [(key_of name, e)] 1] doc)
  | None => Err IncorrectType (In.mkIn None [Iterator.Object [(key_of name, e)] 0] doc)
  end.
Proof.
  unfold In.loadValue_small_signed, bind at 1. rewrite first_member_state.
  unfold In.back_value, In.incr_back, bind, In.get, In.put, ret, throw, In.set_stack; simpl.
  destruct (get_int64 e); reflexivity.
Qed.

Lemma read_first_small_unsigned w name e doc :
  In.loadValue_small_unsigned w (In.mkIn name [Iterator.Object [(key_of name, e)] 0] doc) =
  match get_uint64 e with
  | Some z => Ok (In.wrap_unsigned w z) (In.mkIn None [Iterator.Object [(key_of name, e)] 1] doc)
  | None => Err IncorrectType (In.mkIn None [Iterator.Object [(key_of name, e)] 0] doc)
  end.
Proof.
  unfold In.loadValue_small_unsigned, bind at 1. rewrite first_member_state.
  unfold In.back_value, In.incr_back, bind, In.get, In.put, ret, throw, In.set_stack; simpl.
  destruct (get_uint64 e); reflexivity.
Qed.

(** Extra X10.  A scalar saved on a fresh archive (with or without a name)
    reads back unchanged: after the destructor, parsing the output (the
    parser being modelled from the spec) and constructing an input
    archive, [setNextName] with the same name and the [loadValue] overload
    of the value's type return the value, provided it fits its C++ type. *)
Theorem scalar_roundtrip name v m :
  scalar_fits v = true -> scalar_loader v = Some m ->
  exists ts doc s0 s1,
    scalar_doc_tokens name v = Some ts /\ parse ts = Some doc /\
    In.init doc = Ok tt s0 /\ (In.setNextName name ;; m) s0 = Ok v s1.
Proof.
  intros Hf Hm.
  assert (Ht : scalar_doc_tokens name v =
     Some [TStartObject; TString (key_of name); scalar_token v; TEndObject])
    by (destruct name; reflexivity).
  assert (Hint : forall z, int64_min <= z <= int64_max ->
    parse_value 8 [scalar_token (VInt64 z); TEndObject] = Some (JInt64 z, [TEndObject]) /\
    parse_value 8 [scalar_token (VInt z); TEndObject] = Some (JInt64 z, [TEndObject]) /\
    parse_value 8 [scalar_token (VUnsigned z); TEndObject] = Some (JInt64 z, [TEndObject]) /\
    parse_value 8 [scalar_token (VUint64 z); TEndObject] = Some (JInt64 z, [TEndObject])).
  { intros z Hz. pose proof (parse_int_signed z Hz) as Hp.
    change (parse_value 8 [scalar_token (VInt64 z); TEndObject]) with
      (match parse_int z with Some e => Some (e, [TEndObject]) | None => None end).
    change (parse_value 8 [scalar_token (VInt z); TEndObject]) with
      (match parse_int z with Some e => Some (e, [TEndObject]) | None => None end).
    change (parse_value 8 [scalar_token (VUnsigned z); TEndObject]) with
      (match parse_int z with Some e => Some (e, [TEndObject]) | None => None end).
    change (parse_value 8 [scalar_token (VUint64 z); TEndObject]) with
      (match parse_int z with Some e => Some (e, [TEndObject]) | None => None end).
    rewrite Hp. repeat split; reflexivity. }
  destruct v as [b|z|z|z|z|str|]; simpl in Hm; inversion Hm; subst m; clear Hm;
    simpl scalar_fits in Hf; rewrite ?andb_true_iff, ?Z.leb_le, ?Z.ltb_lt in Hf.
  - exists [TStartObject; TString (key_of name); TBool b; TEndObject],
      (JObject [(key_of name, JBool b)]).
    do 2 eexists. (split; [exact Ht|]). (split; [apply parse_member; reflexivity|]).
    (split; [reflexivity|]).
    (unfold bind at 1; cbn [In.setNextName bind In.get In.put In.itsIteratorStack
      In.itsDocument Iterator.of_object]).
    (unfold In.loadValue_bool at 1, In.set_next; cbn [In.itsIteratorStack In.itsDocument]).
    unfold bind at 1. rewrite read_first_member. reflexivity.
  - assert (Hz : int64_min <= z <= int64_max) by (unfold int64_min, int64_max; lia).
    assert (Hw : In.wrap_signed 32 z = z)
      by (unfold In.wrap_signed; rewrite Z.mod_small; lia).
    exists [TStartObject; TString (key_of name); TInt z; TEndObject],
      (JObject [(key_of name, JInt64 z)]).
    do 2 eexists. split; [exact Ht|].
    split; [apply parse_member; exact (proj1 (proj2 (Hint z Hz)))|].
    split; [reflexivity|].
    unfold bind at 1; cbn [In.setNextName bind In.get In.put In.itsIteratorStack
      In.itsDocument Iterator.of_object].
    unfold In.set_next; cbn [In.itsIteratorStack In.itsDocument].
    unfold bind at 1.
    rewrite read_first_small_signed. cbn [get_int64]. rewrite Hw. reflexivity.
  - assert (Hz : int64_min <= z <= int64_max) by (unfold int64_min, int64_max; lia).
    assert (Hw : In.wrap_unsigned 32 z = z)
      by (unfold In.wrap_unsigned; rewrite Z.mod_small; lia).
    assert (H0 : (0 <=? z) = true) by (apply Z.leb_le; lia).
    exists [TStartObject; TString (key_of name); TUint z; TEndObject],
      (JObject [(key_of name, JInt64 z)]).
    do 2 eexists. split; [exact Ht|].
    split; [apply parse_member; exact (proj1 (proj2 (proj2 (Hint z Hz))))|].
    split; [reflexivity|].
    unfold bind at 1; cbn [In.setNextName bind In.get In.put In.itsIteratorStack
      In.itsDocument Iterator.of_object].
    unfold In.set_next; cbn [In.itsIteratorStack In.itsDocument].
    unfold bind at 1.
    rewrite read_first_small_unsigned. unfold get_uint64. rewrite H0, Hw. reflexivity.
  - exists [TStartObject; TString (key_of name); TInt64 z; TEndObject],
      (JObject [(key_of name, JInt64 z)]).
    do 2 eexists. split; [exact Ht|].
    split; [apply parse_member; exact (proj1 (Hint z Hf))|].
    split; [reflexivity|].
    unfold bind at 1; cbn [In.setNextName bind In.get In.put In.itsIteratorStack
      In.itsDocument Iterator.of_object].
    unfold In.set_next; cbn [In.itsIteratorStack In.itsDocument].
    unfold bind at 1.
    unfold In.loadValue_int64. rewrite read_first_member. reflexivity.
  - destruct (Z.le_gt_cases z int64_max) as [Hle|Hgt].
    + assert (Hz : int64_min <= z <= int64_max) by (unfold int64_min in *; lia).
      assert (H0 : (0 <=? z) = true) by (apply Z.leb_le; lia).
      exists [TStartObject; TString (key_of name); TUint64 z; TEndObject],
        (JObject [(key_of name, JInt64 z)]).
      do 2 eexists. split; [exact Ht|].
      split; [apply parse_member; exact (proj2 (proj2 (proj2 (Hint z Hz))))|].
      split; [reflexivity|].
    unfold bind at 1; cbn [In.setNextName bind In.get In.put In.itsIteratorStack
      In.itsDocument Iterator.of_object].
    unfold In.set_next; cbn [In.itsIteratorStack In.itsDocument].
    unfold bind at 1.
      unfold In.loadValue_uint64. rewrite read_first_member. unfold get_uint64. rewrite H0.
      reflexivity.
    + assert (Hp : parse_int z = Some (JUint64 z)) by (apply parse_int_unsigned; lia).
      exists [TStartObject; TString (key_of name); TUint64 z; TEndObject],
        (JObject [(key_of name, JUint64 z)]).
      do 2 eexists. split; [exact Ht|].
      split; [apply parse_member|].
      { change (parse_value 8 [TUint64 z; TEndObject]) with
          (match parse_int z with Some e => Some (e, [TEndObject]) | None => None end).
        rewrite Hp. reflexivity. }
      split; [reflexivity|].
    unfold bind at 1; cbn [In.setNextName bind In.get In.put In.itsIteratorStack
      In.itsDocument Iterator.of_object].
    unfold In.set_next; cbn [In.itsIteratorStack In.itsDocument].
    unfold bind at 1.
      unfold In.loadValue_uint64. rewrite read_first_member. reflexivity.
  - exists [TStartObject; TString (key_of name); TString str; TEndObject],
      (JObject [(key_of name, JString str)]).
    do 2 eexists. split; [exact Ht|]. split; [apply parse_member; reflexivity|].
    split; [reflexivity|].
    unfold bind at 1; cbn [In.setNextName bind In.get In.put In.itsIteratorStack
      In.itsDocument Iterator.of_object].
    unfold In.set_next; cbn [In.itsIteratorStack In.itsDocument].
    unfold bind at 1.
    unfold In.loadValue_string. rewrite read_first_member. reflexivity.
Qed.

Lemma scalar_roundtrip_witness :
  exists ts doc s0 s1,
    scalar_doc_tokens (Some "x"%string) (VInt (-5)) = Some ts /\ parse ts = Some doc /\
    In.init doc = Ok tt s0 /\
    (In.setNextName (Some "x"%string) ;; (z <- In.loadValue_small_signed 32 ;; ret (VInt z))) s0
    = Ok (VInt (-5)) s1.
Proof.
  apply (scalar_roundtrip (Some "x"%string) (VInt (-5))); reflexivity.
Defined.
